(** * A shallow embedding of [src/index.js] (systemsoftware/fetch)

    The module is one large function, [_fetch], wrapped by six per-verb
    entry points.  Its behaviour splits in two phases:

    - the body of the Promise executor up to [req.end()], which reads and
      writes configuration objects that live on the JavaScript heap and may
      call [reject] or throw;
    - the listeners registered on the request and on the response, which
      the transport calls later, one event at a time.

    The first phase is embedded in a small state-and-exception monad over
    the heap and the Promise; the second as handlers on a per-call state,
    driven by a step relation that carries the delivery rules of the
    transport. *)

From Stdlib Require Import Ascii String.
From Stdlib.Strings Require Import Byte.
From stdpp Require Import base option strings gmap list pretty.

Open Scope Z_scope.
Open Scope string_scope.

(** ** JavaScript values, as far as the module inspects them *)

(** The module looks at a value through [typeof v === 'function'],
    [v == null], [typeof v === 'boolean'], [v instanceof Headers],
    [v instanceof ReadableStream], truthiness and [===] against a string
    literal.  One constructor per shape those tests can tell apart. *)
Inductive value : Type :=
  | VUndefined
  | VNull
  | VBoolean (b : bool)
  | VNumber (n : Z)
  | VString (s : string)
  | VFunction (name : string)
  (** a plain object used as a mapping from names to strings *)
  | VObject (fields : gmap string string)
  (** an instance of the platform class [Headers], given by the pairs its
      [entries()] iteration yields, in order: one pair per header name,
      except that [Set-Cookie] yields one pair per value *)
  | VHeaders (entries : list (string * string))
  (** an instance of [Map]: it has an [entries()] method, but it is not a
      [Headers] *)
  | VMap (pairs : list (string * string))
  (** an instance of [ReadableStream] that can be read (not locked, not
      errored), given by what the one streaming [TextDecoder] of
      [ReadStream] returns for each chunk read, in order: the decoder
      holds back the bytes of a character that a chunk cuts and gives the
      character with the next chunk, and what it still holds back after
      the last chunk is never given *)
  | VReadableStream (chunks : list string)
  (** any other object ([Agent], [AbortSignal], ...) *)
  | VOther (tag : string).

#[global] Instance value_eq_dec : EqDecision value.
Proof. solve_decision. Defined.

(** [typeof v === 'function'] *)
Definition typeof_function (v : value) : bool :=
  match v with VFunction _ => true | _ => false end.

(** [v == null]: loose equality with [null] holds for [null] and
    [undefined] only. *)
Definition loose_null (v : value) : bool :=
  match v with VUndefined | VNull => true | _ => false end.

(** [typeof v === 'boolean'] *)
Definition typeof_boolean (v : value) : bool :=
  match v with VBoolean _ => true | _ => false end.

(** [v instanceof Headers] *)
Definition instanceof_Headers (v : value) : bool :=
  match v with VHeaders _ => true | _ => false end.

(** [v instanceof ReadableStream] *)
Definition instanceof_ReadableStream (v : value) : bool :=
  match v with VReadableStream _ => true | _ => false end.

(** ToBoolean, the conversion behind [if (v)] and [!v]. *)
Definition truthy (v : value) : bool :=
  match v with
  | VUndefined | VNull => false
  | VBoolean b => b
  | VNumber n => negb (Z.eqb n 0)
  | VString s => negb (String.eqb s "")
  | _ => true
  end.

(** [a === b] where [b] is a string literal. *)
Definition strict_eq_string (a : value) (lit : string) : bool :=
  match a with VString s => String.eqb s lit | _ => false end.

(** Property read on a string primitive: [s.length] is the only data
    property; every other name falls through [String.prototype] to
    [undefined] (methods are not modelled). *)
Definition string_get (s : string) (prop : string) : value :=
  if String.eqb prop "length" then VNumber (Z.of_nat (String.length s))
  else VUndefined.

(** Whether a value offers an [entries()] iteration over name/value
    pairs. *)
Definition has_entries (v : value) : bool :=
  match v with VHeaders _ | VMap _ => true | _ => false end.

(** ** Objects and the heap *)

(** An object with string keys. *)
Abbreviation object := (gmap string value).

(** [o.k]: reading an absent property gives [undefined]. *)
Definition get_prop (o : object) (k : string) : value :=
  default VUndefined (o !! k).

(** [{ ...base, ...src }]: properties of the later spread win. *)
Definition spread (base src : object) : object := src ∪ base.

(** [Object.fromEntries(pairs)]: pairs are written in order, so the last
    pair for a name wins. *)
Definition Object_fromEntries (pairs : list (string * string))
  : gmap string string :=
  fold_left (λ o kv, <[kv.1 := kv.2]> o) pairs ∅.

(** [h.entries()] of a [Headers]. *)
Definition Headers_entries (entries : list (string * string))
  : list (string * string) :=
  entries.

(** The value of the last pair with the given name, if there is one. *)
Fixpoint last_value (name : string) (pairs : list (string * string))
  : option string :=
  match pairs with
  | [] => None
  | (k, v) :: rest =>
      match last_value name rest with
      | Some v' => Some v'
      | None => if String.eqb k name then Some v else None
      end
  end.

Abbreviation loc := nat (only parsing).
Abbreviation heap := (gmap nat object).

(** ** The data of the module *)

(** [const httpConfig = { ... }] (lines 31-42). *)
Definition httpConfig : object :=
  <["agent" := VNull]>
  (<["signal" := VNull]>
  (<["silent" := VBoolean false]>
  (<["onData" := VNull]>
  (<["method" := VString "GET"]>
  (<["body" := VNull]>
  (<["auth" := VNull]>
  (<["agent" := VNull]>
  (<["timeout" := VNumber 5000]>
  (<["headers" := VObject ∅]> ∅))))))))).

(** The heap cell that holds the module-level [httpConfig] object. *)
Definition httpConfig_loc : nat := 0%nat.

(** The heap when the module has just been loaded. *)
Definition module_heap : heap := {[ httpConfig_loc := httpConfig ]}.

(** [class FetchError extends Error] (lines 44-50).  [status] is a value:
    an HTTP status number, or the code string of a transport error. *)
Record FetchError : Type := mkFetchError {
  message : string;
  status : value;
  statusText : string
}.

(** A parsed URL, with the fields the module reads. *)
Record URL : Type := mkURL {
  protocol : string;
  hostname : string;
  port : string;
  pathname : string;
  search : string;
  hash : string
}.

(** An instance of [Request]: its [url] is always a string; [req_props]
    are the other properties a [for ... in] loop visits. *)
Record Request : Type := mkRequest {
  req_url : string;
  req_props : object
}.

(** The properties of a [Request] that [for ... in] enumerates. *)
Definition Request_enumerable (r : Request) : object :=
  <["url" := VString (req_url r)]> (req_props r).

(** The first argument of a call, by the tests [_fetch] applies to it. *)
Inductive input : Type :=
  | InRequest (r : Request)
  | InString (s : string)
  | InURL (u : URL)
  | InOther (v : value).

Definition instanceof_Request (i : input) : bool :=
  match i with InRequest _ => true | _ => false end.
Definition typeof_string (i : input) : bool :=
  match i with InString _ => true | _ => false end.
Definition instanceof_URL (i : input) : bool :=
  match i with InURL _ => true | _ => false end.

(** The two transports, [require('http')] and [require('https')]. *)
Inductive transport : Type := http | https.

(** The transport's response handle.  [decoded] is the buffer that the
    five closures [json], [text], [blob], [arrayBuffer] and [formData]
    capture once they are attached; [None] before. *)
Record IncomingMessage : Type := mkIncomingMessage {
  statusCode : Z;
  statusMessage : string;
  decoded : option string
}.

(** [await res.text()] *)
Definition text (res : IncomingMessage) : option string := decoded res.

(** A Promise settles once: later calls of [resolve] and [reject] do
    nothing. *)
Inductive promise : Type :=
  | Pending
  | Fulfilled (res : IncomingMessage)
  | Rejected (err : FetchError).

Definition resolve (res : IncomingMessage) (p : promise) : promise :=
  match p with Pending => Fulfilled res | _ => p end.

Definition reject (err : FetchError) (p : promise) : promise :=
  match p with Pending => Rejected err | _ => p end.

(** ** [copyProperties] (lines 52-57) *)

Fixpoint copyProperties_loop (target : object) (keys : list (string * value))
  : object :=
  match keys with
  | [] => target
  | (key, v) :: rest =>
      if typeof_function v || loose_null v
      then copyProperties_loop target rest
      else copyProperties_loop (<[key := v]> target) rest
  end.

Definition copyProperties (target source : object) : object :=
  copyProperties_loop target (map_to_list source).

(** ** [ReadStream] (lines 59-71)

    The loop of [reader.read()] over a stream that can be read.  A list
    element is what [decoder.decode(value, { stream: true })] returns for
    one chunk, so [result += ...] is the append of the loop below.
    [getReader()] throws on a stream that is locked; such a stream is not
    among the values of the model. *)

Fixpoint ReadStream_loop (result : string) (chunks : list string) : string :=
  match chunks with
  | [] => result
  | c :: rest => ReadStream_loop (result +:+ c) rest
  end.

Definition ReadStream (chunks : list string) : string :=
  ReadStream_loop "" chunks.

(** ** The executor monad

    The executor passed to [new Promise] runs over the heap and over the
    Promise it settles.  A statement either completes or throws; a throw
    keeps the heap writes and the settlement made before it. *)

Record world : Type := mkWorld {
  objects : heap;
  settled : promise
}.

Inductive completion (A : Type) : Type :=
  | Normal (a : A)
  | Throw (exn : string).
Arguments Normal {A} a.
Arguments Throw {A} exn.

Definition exec (A : Type) : Type := world → completion A * world.

Definition ret {A} (a : A) : exec A := λ w, (Normal a, w).

Definition bind {A B} (m : exec A) (k : A → exec B) : exec B :=
  λ w, match m w with
       | (Normal a, w') => k a w'
       | (Throw e, w') => (Throw e, w')
       end.

Definition throw {A} (e : string) : exec A := λ w, (Throw e, w).

Notation "x ←$ m ; k" := (bind m (λ x, k))
  (at level 100, m at next level, k at level 200, right associativity,
   format "'[v' x  ←$  m ; '/' k ']'").
Notation "m ;$ k" := (bind m (λ _, k))
  (at level 100, k at level 200, right associativity,
   format "'[v' m ;$ '/' k ']'").

(** Dereference of an object reference. *)
Definition read (l : loc) : exec object :=
  λ w, match objects w !! l with
       | Some o => (Normal o, w)
       | None => (Throw "ReferenceError", w)
       end.

(** [o.k = v] on the object at [l]. *)
Definition set_prop (l : loc) (k : string) (v : value) : exec unit :=
  o ←$ read l;
  λ w, (Normal tt, mkWorld (<[l := <[k := v]> o]> (objects w)) (settled w)).

(** [delete o.k] on the object at [l]. *)
Definition delete_prop (l : loc) (k : string) : exec unit :=
  o ←$ read l;
  λ w, (Normal tt, mkWorld (<[l := delete k o]> (objects w)) (settled w)).

(** Overwrite the object at [l] as a whole (the net effect of a loop of
    property writes). *)
Definition write (l : loc) (o : object) : exec unit :=
  λ w, (Normal tt, mkWorld (<[l := o]> (objects w)) (settled w)).

(** An object literal: a new object at an unused location. *)
Definition alloc (o : object) : exec loc :=
  λ w, let l := fresh (dom (objects w)) in
       (Normal l, mkWorld (<[l := o]> (objects w)) (settled w)).

(** [reject(err)] inside the executor. *)
Definition do_reject (err : FetchError) : exec unit :=
  λ w, (Normal tt, mkWorld (objects w) (reject err (settled w))).

(** ** [_fetch] up to [req.end()] (lines 79-117, 146) *)

(** What [protocol.request(options, callback)] receives, with the two
    variables [silent] and [onData] that the listeners close over. *)
Record ClientRequest : Type := mkClientRequest {
  via : transport;
  options : object;
  silent : value;
  onData : value
}.

Section Executor.

(** [new URL(s)] of the platform; [None] when it throws [TypeError]. *)
Variable new_URL : string → option URL.

Definition URL_of_string (s : string) : exec URL :=
  match new_URL s with
  | Some u => ret u
  | None => throw "TypeError: Invalid URL"
  end.

(** [let path = _url.pathname; if (_url.search) path += _url.search;
    if (_url.hash) path += _url.hash;] *)
Definition request_path (u : URL) : string :=
  let path := pathname u in
  let path := if truthy (VString (search u)) then path +:+ search u else path in
  let path := if truthy (VString (hash u)) then path +:+ hash u else path in
  path.

(** Lines 84-96: the four-way test on the first argument.  It leaves
    [protocol] and [_url] assigned, or both [undefined] after the call of
    [reject] in the last branch. *)
Definition resolve_input (url : input) (config : loc)
  : exec (option transport * option URL) :=
  match url with
  | InRequest r =>
      _url ←$ URL_of_string (req_url r);
      target ←$ read config;
      write config (copyProperties target (Request_enumerable r)) ;$
      ret (Some (if String.prefix "https" (req_url r) then https else http),
           Some _url)
  | InString s =>
      _url ←$ URL_of_string s;
      ret (Some (if strict_eq_string (string_get s "protocol") "https:"
                 then https else http),
           Some _url)
  | InURL u =>
      ret (Some (if strict_eq_string (VString (protocol u)) "https:"
                 then https else http),
           Some u)
  | InOther _ =>
      do_reject (mkFetchError "Invalid URL" (VNumber 400) "Bad Request") ;$
      ret (None, None)
  end.

(** Lines 98-100: [if (config.headers instanceof Headers) config.headers =
    Object.fromEntries(config.headers.entries());] *)
Definition headers_to_object (config : loc) : exec unit :=
  cfg ←$ read config;
  match get_prop cfg "headers" with
  | VHeaders h =>
      set_prop config "headers" (VObject (Object_fromEntries (Headers_entries h)))
  | _ => ret tt
  end.

(** Line 106: [if (config.body instanceof ReadableStream) config.body =
    await ReadStream(config.body);].  The stream that was read stays
    locked and empty.  The model does not follow a stream once it is
    drained: no statement below hands a drained stream, or a [Request]
    that owns one, to a further call. *)
Definition drain_body (config : loc) : exec unit :=
  cfg ←$ read config;
  match get_prop cfg "body" with
  | VReadableStream chunks =>
      set_prop config "body" (VString (ReadStream chunks))
  | _ => ret tt
  end.

(** Line 108: [if (typeof config.bodyUsed === 'boolean') delete
    config.bodyUsed;] *)
Definition drop_bodyUsed (config : loc) : exec unit :=
  cfg ←$ read config;
  if typeof_boolean (get_prop cfg "bodyUsed")
  then delete_prop config "bodyUsed" else ret tt.

(** [{ hostname: _url.hostname, port: _url.port, path, ..._config }] *)
Definition request_options (u : URL) (path : string) (_config : object)
  : object :=
  spread (<["path" := VString path]>
          (<["port" := VString (port u)]>
          (<["hostname" := VString (hostname u)]> ∅)))
         _config.

(** Lines 110-117: [const { silent, onData, ..._config } = config;] and the
    call of [protocol.request]. *)
Definition issue (protocol_ : option transport) (_url : option URL)
    (path : string) (config : loc) : exec ClientRequest :=
  cfg ←$ read config;
  let silent_ := get_prop cfg "silent" in
  let onData_ := get_prop cfg "onData" in
  let _config := delete "onData" (delete "silent" cfg) in
  match protocol_, _url with
  | Some p, Some u =>
      ret (mkClientRequest p (request_options u path _config) silent_ onData_)
  | _, _ =>
      throw "TypeError: Cannot read properties of undefined (reading 'request')"
  end.

Definition _fetch (url : input) (config_arg : option loc)
  : exec ClientRequest :=
  (* config = httpConfig *)
  let config := default httpConfig_loc config_arg in
  resolved ←$ resolve_input url config;
  let protocol_ := resolved.1 in
  let _url := resolved.2 in
  headers_to_object config ;$
  path ←$
    match _url with
    | Some u => ret (request_path u)
    | None =>
        throw "TypeError: Cannot read properties of undefined (reading 'pathname')"
    end;
  drain_body config ;$
  drop_bodyUsed config ;$
  issue protocol_ _url path config.

(** [module.exports.fetch = _fetch]: a call makes a new Promise and runs
    the executor on the current heap. *)
Definition call (body : exec ClientRequest) (h : heap)
  : completion ClientRequest * world :=
  body (mkWorld h Pending).

Definition fetch (url : input) (config : option loc) (h : heap) :=
  call (_fetch url config) h.

(** [{ ...config, method: verb }]: a new object; spreading [undefined]
    adds nothing. *)
Definition with_method (verb : string) (config : option loc) : exec loc :=
  src ←$ match config with Some l => read l | None => ret ∅ end;
  alloc (<["method" := VString verb]> (spread ∅ src)).

(** The per-verb entry points (lines 156-214). *)
Definition verb_call (verb : string) (url : input) (config : option loc)
    (h : heap) :=
  call (l ←$ with_method verb config; _fetch url (Some l)) h.

End Executor.

Module exports.
Section Verbs.
Variable new_URL : string → option URL.
Definition get := verb_call new_URL "GET".
Definition post := verb_call new_URL "POST".
Definition put := verb_call new_URL "PUT".
Definition patch := verb_call new_URL "PATCH".
Definition delete := verb_call new_URL "DELETE".
Definition head := verb_call new_URL "HEAD".
Definition fetch := fetch new_URL.
End Verbs.
End exports.

(** ** The listeners (lines 118-144)

    After [req.end()] the transport calls the listeners.  A call is then
    described by the Promise, the variables [res] and [data] of the
    response callback, the chunks that were handed to [onData], and the
    two facts about the request that the transport keeps: whether it was
    destroyed, and whether its response has ended. *)

(** A [Buffer]: the bytes of one chunk, as the transport delivers them
    (the response has no encoding set). *)
Abbreviation Buffer := (list byte).

Record call_state : Type := mkCall {
  outcome : promise;
  res : option IncomingMessage;
  data : string;
  delivered : list Buffer;
  destroyed : bool;
  ended : bool
}.

(** The state in which [req.end()] leaves a call whose Promise is [p]. *)
Definition issued (p : promise) : call_state :=
  mkCall p None "" [] false false.

Inductive event : Type :=
  | Response (code : Z) (msg : string)
  | Data (chunk : Buffer)
  | End
  | Error (msg : string) (code : value)
  | Timeout.

Section Listeners.

(** [chunk.toString()] of the platform, which [data += chunk] applies to
    each [Buffer] on its own: the text that the bytes of this one chunk
    decode to. *)
Variable Buffer_toString : Buffer → string.

Variable rq : ClientRequest.

(** [(res) => { let data = ''; res.on('data', ...); res.on('end', ...) }] *)
Definition on_response (code : Z) (msg : string) (st : call_state)
  : call_state :=
  mkCall (outcome st) (Some (mkIncomingMessage code msg None)) ""
         (delivered st) (destroyed st) (ended st).

(** [(chunk) => { data += chunk; if (onData) onData(chunk); }]: the text
    of the chunk is appended first; then [onData], if truthy, is called
    with the [Buffer] itself, and calling an [onData] that is not a
    function throws. *)
Definition on_data (chunk : Buffer) (st : call_state)
  : completion unit * call_state :=
  let data' := data st +:+ Buffer_toString chunk in
  if truthy (onData rq) then
    if typeof_function (onData rq) then
      (Normal tt,
       mkCall (outcome st) (res st) data' (delivered st ++ [chunk])
              (destroyed st) (ended st))
    else
      (Throw "TypeError: onData is not a function",
       mkCall (outcome st) (res st) data' (delivered st)
              (destroyed st) (ended st))
  else
    (Normal tt,
     mkCall (outcome st) (res st) data' (delivered st)
            (destroyed st) (ended st)).

(** The ['end'] listener (lines 125-133), for the response handle [r]. *)
Definition on_end (r : IncomingMessage) (st : call_state) : call_state :=
  let p :=
    if (statusCode r >=? 400)%Z && negb (truthy (silent rq))
    then reject (mkFetchError
                   ("Request failed with status code " +:+ pretty (statusCode r))
                   (VNumber (statusCode r)) (statusMessage r))
                (outcome st)
    else outcome st in
  let r' := mkIncomingMessage (statusCode r) (statusMessage r) (Some (data st)) in
  mkCall (resolve r' p) (Some r') (data st) (delivered st)
         (destroyed st) (ended st).

(** The ['error'] listener (lines 137-139). *)
Definition on_error (msg : string) (code : value) (st : call_state)
  : call_state :=
  mkCall (reject (mkFetchError msg code msg) (outcome st))
         (res st) (data st) (delivered st) (destroyed st) (ended st).

(** The ['timeout'] listener (lines 141-144): [req.destroy()], then
    [reject]. *)
Definition on_timeout (st : call_state) : call_state :=
  mkCall (reject (mkFetchError "Request timed out" (VNumber 408) "Request Timeout")
                 (outcome st))
         (res st) (data st) (delivered st) true (ended st).

(** The transport notes that the response has ended. *)
Definition mark_ended (st : call_state) : call_state :=
  mkCall (outcome st) (res st) (data st) (delivered st) (destroyed st) true.

(** One event delivered by the transport.  The premises are the delivery
    rules of the platform's [http] and [https] modules: the response
    callback runs once; ['data'] and ['end'] come after it, ['end'] once
    and ['data'] never after it; a destroyed request delivers no
    response, chunk, end or timeout any more, while ['error'] may still
    follow.  A ['data'] listener that throws has run up to the throw: the
    state it leaves is the state of the call if the program goes on. *)
Inductive step : call_state → event → call_state → Prop :=
  | step_response code msg st :
      destroyed st = false → res st = None →
      step st (Response code msg) (on_response code msg st)
  | step_data chunk st r c st' :
      destroyed st = false → ended st = false → res st = Some r →
      on_data chunk st = (c, st') →
      step st (Data chunk) st'
  | step_end st r :
      destroyed st = false → ended st = false → res st = Some r →
      step st End (mark_ended (on_end r st))
  | step_error msg code st :
      step st (Error msg code) (on_error msg code st)
  | step_timeout st :
      destroyed st = false →
      step st Timeout (on_timeout st).

Inductive steps : call_state → list event → call_state → Prop :=
  | steps_nil st : steps st [] st
  | steps_cons st ev st' tr st'' :
      step st ev st' → steps st' tr st'' → steps st (ev :: tr) st''.

(** What the buffer [data] receives from a trace: the text of each chunk,
    converted on its own, in arrival order. *)
Fixpoint received (tr : list event) : string :=
  match tr with
  | [] => ""
  | Data chunk :: rest => Buffer_toString chunk +:+ received rest
  | _ :: rest => received rest
  end.

End Listeners.

Definition is_chunk_or_completion (ev : event) : bool :=
  match ev with Response _ _ | Data _ | End => true | _ => false end.

Definition is_completion_or_error (ev : event) : bool :=
  match ev with End | Error _ _ => true | _ => false end.

(** ** A UTF-8 decoder for the closed examples

    The theorems on the listeners hold for every [Buffer_toString].  The
    examples instantiate it with this decoder, which follows the UTF-8
    decoding rules of the platform: a well-formed sequence gives its
    character, every maximal ill-formed or cut-off part gives U+FFFD.  A
    JavaScript string is written here as the UTF-8 bytes of its text. *)

(** U+FFFD, the replacement character. *)
Definition replacement : string :=
  String "239" (String "191" (String "189" "")).

(** A sequence that has begun: its bytes so far, how many bytes are still
    needed, and the range the next byte must lie in. *)
Definition utf8_pending : Type := string * nat * N * N.

Definition utf8_start (b : byte) : string * option utf8_pending :=
  let n := Byte.to_N b in
  let c := String (ascii_of_byte b) "" in
  if (n <=? 127)%N then (c, None)
  else if (194 <=? n)%N && (n <=? 223)%N then ("", Some (c, 1%nat, 128, 191)%N)
  else if (224 <=? n)%N && (n <=? 239)%N then
    ("", Some (c, 2%nat, if (n =? 224)%N then 160%N else 128%N,
               if (n =? 237)%N then 159%N else 191%N))
  else if (240 <=? n)%N && (n <=? 244)%N then
    ("", Some (c, 3%nat, if (n =? 240)%N then 144%N else 128%N,
               if (n =? 244)%N then 143%N else 191%N))
  else (replacement, None).

Fixpoint utf8_run (pending : option utf8_pending) (bytes : Buffer) : string :=
  match bytes with
  | [] => match pending with None => "" | Some _ => replacement end
  | b :: rest =>
      match pending with
      | None =>
          let '(out, pending') := utf8_start b in
          out +:+ utf8_run pending' rest
      | Some (seq, needed, lo, hi) =>
          let n := Byte.to_N b in
          if (lo <=? n)%N && (n <=? hi)%N then
            let seq' := seq +:+ String (ascii_of_byte b) "" in
            match needed with
            | S (S k) => utf8_run (Some (seq', S k, 128%N, 191%N)) rest
            | _ => seq' +:+ utf8_run None rest
            end
          else
            let '(out, pending') := utf8_start b in
            replacement +:+ out +:+ utf8_run pending' rest
      end
  end.

(** [chunk.toString()]: the bytes of one [Buffer], decoded on their
    own. *)
Definition utf8_toString (chunk : Buffer) : string := utf8_run None chunk.

(** ** A URL parser for the closed examples

    The theorems below hold for every [new_URL].  The examples
    instantiate it with this parser of plain
    [scheme://host[:port][/path][?query][#fragment]] strings, which
    splits like the platform's parser does on such strings and drops the
    default port of [http] and [https]. *)

Fixpoint break_at (stop : ascii → bool) (s : string) : string * string :=
  match s with
  | EmptyString => ("", "")
  | String c rest =>
      if stop c then ("", s)
      else let '(a, b) := break_at stop rest in (String c a, b)
  end.

Definition is_char (c : ascii) : ascii → bool := Ascii.eqb c.

Definition strip_marker (marker part : string) : string :=
  if String.eqb part marker then "" else part.

Definition simple_URL (s : string) : option URL :=
  let '(scheme, rest) := break_at (is_char ":") s in
  match rest with
  | String ":" (String "/" (String "/" rest)) =>
      let '(authority, rest) :=
        break_at (λ c, is_char "/" c || is_char "?" c || is_char "#" c) rest in
      let '(host, port_) := break_at (is_char ":") authority in
      let port_ := match port_ with String _ p => p | EmptyString => "" end in
      let port_ :=
        if String.eqb scheme "http" && String.eqb port_ "80" then ""
        else if String.eqb scheme "https" && String.eqb port_ "443" then ""
        else port_ in
      let '(path, rest) := break_at (λ c, is_char "?" c || is_char "#" c) rest in
      let '(query, fragment) := break_at (is_char "#") rest in
      if String.eqb scheme "" || String.eqb host "" then None
      else Some (mkURL (scheme +:+ ":") host port_
                       (if String.eqb path "" then "/" else path)
                       (strip_marker "?" query) (strip_marker "#" fragment))
  | _ => None
  end.

(** ** The net effect of the executor on a configuration object

    The same statements as pure functions on the object they update;
    the lemmas of the next section show that [_fetch] computes them. *)

Definition headers_converted (cfg : object) : object :=
  match get_prop cfg "headers" with
  | VHeaders h =>
      <["headers" := VObject (Object_fromEntries (Headers_entries h))]> cfg
  | _ => cfg
  end.

Definition body_drained (cfg : object) : object :=
  match get_prop cfg "body" with
  | VReadableStream chunks => <["body" := VString (ReadStream chunks)]> cfg
  | _ => cfg
  end.

Definition bodyUsed_dropped (cfg : object) : object :=
  if typeof_boolean (get_prop cfg "bodyUsed") then delete "bodyUsed" cfg
  else cfg.

Definition resolved_config (cfg : object) : object :=
  bodyUsed_dropped (body_drained (headers_converted cfg)).

(** The request [_fetch] issues for a configuration object that has
    reached its final form [cfg]. *)
Definition request_for (p : transport) (u : URL) (cfg : object)
  : ClientRequest :=
  mkClientRequest p
    (request_options u (request_path u) (delete "onData" (delete "silent" cfg)))
    (get_prop cfg "silent") (get_prop cfg "onData").

(** The configuration object once the properties of a [Request] input
    have been copied onto it; other inputs copy nothing. *)
Definition merged_config (url : input) (cfg : object) : object :=
  match url with
  | InRequest r => copyProperties cfg (Request_enumerable r)
  | _ => cfg
  end.

(** The URL a call is aimed at, if its input has one. *)
Definition target (new_URL : string → option URL) (url : input)
  : option URL :=
  match url with
  | InRequest r => new_URL (req_url r)
  | InString s => new_URL s
  | InURL u => Some u
  | InOther _ => None
  end.

(** The fields a caller hands to a per-verb entry point: those of the
    object passed, none when the argument is left out. *)
Definition caller_fields (h : heap) (config : option loc) : option object :=
  match config with
  | Some l => h !! l
  | None => Some ∅
  end.

(** The transport a call handed its request to, if it issued one. *)
Definition went_via (r : completion ClientRequest * world) : option transport :=
  match r.1 with
  | Normal rq => Some (via rq)
  | Throw _ => None
  end.

(** The transport that the four-way test of lines 84-96 assigns to
    [protocol]: by the prefix of [url.url] for a [Request], by the
    [protocol] field for a [URL] object, the plain one for a string (whose
    [protocol] property is [undefined]), none for any other input. *)
Definition selected (url : input) : option transport :=
  match url with
  | InRequest r =>
      Some (if String.prefix "https" (req_url r) then https else http)
  | InString _ => Some http
  | InURL u => Some (if String.eqb (protocol u) "https:" then https else http)
  | InOther _ => None
  end.

(** A value that [copyProperties] copies. *)
Definition copyable (v : value) : bool :=
  negb (typeof_function v || loose_null v).


(** A computation that writes to no object but the one at [l]. *)
Definition writes_only {A} (l : loc) (m : exec A) : Prop :=
  ∀ w l', l' ≠ l → objects (m w).2 !! l' = objects w !! l'.

(** The chunks of a trace, one list element per ['data'] event. *)
Fixpoint chunks_of (tr : list event) : list Buffer :=
  match tr with
  | [] => []
  | Data chunk :: rest => chunk :: chunks_of rest
  | _ :: rest => chunks_of rest
  end.

(** The events on which a listener settles the Promise. *)
Definition settles (ev : event) : bool :=
  match ev with End | Error _ _ | Timeout => true | _ => false end.

(** A whole exchange: the response arrives, then its chunks, then the
    end of the body. *)
Definition exchange (code : Z) (msg : string) (chunks : list Buffer)
  : list event :=
  Response code msg :: (Data <$> chunks) ++ [End].

(** * Lemmas on the executor *)

Example simple_URL_search :
  simple_URL "http://example.com/search?q=1#frag"
  = Some (mkURL "http:" "example.com" "" "/search" "?q=1" "#frag").
Proof. reflexivity. Qed.

Example simple_URL_https :
  simple_URL "https://example.com:8443"
  = Some (mkURL "https:" "example.com" "8443" "/" "" "").
Proof. reflexivity. Qed.

Example simple_URL_relative : simple_URL "/search?q=1" = None.
Proof. reflexivity. Qed.

Lemma world_eta w : mkWorld (objects w) (settled w) = w.
Proof. by destruct w. Qed.

Lemma bind_normal {A B} (m : exec A) (k : A → exec B) w a w' :
  m w = (Normal a, w') → bind m k w = k a w'.
Proof. unfold bind. by intros ->. Qed.

Lemma bind_throw {A B} (m : exec A) (k : A → exec B) w e w' :
  m w = (Throw e, w') → bind m k w = (Throw e, w').
Proof. unfold bind. by intros ->. Qed.

Lemma read_run l cfg w : objects w !! l = Some cfg → read l w = (Normal cfg, w).
Proof. unfold read. by intros ->. Qed.

Lemma set_prop_run l cfg k v w :
  objects w !! l = Some cfg →
  set_prop l k v w
  = (Normal tt, mkWorld (<[l := <[k := v]> cfg]> (objects w)) (settled w)).
Proof. intros H. unfold set_prop. by rewrite (bind_normal _ _ _ _ _ (read_run _ _ _ H)). Qed.

Lemma delete_prop_run l cfg k w :
  objects w !! l = Some cfg →
  delete_prop l k w
  = (Normal tt, mkWorld (<[l := delete k cfg]> (objects w)) (settled w)).
Proof. intros H. unfold delete_prop. by rewrite (bind_normal _ _ _ _ _ (read_run _ _ _ H)). Qed.

Lemma unchanged_run l cfg w :
  objects w !! l = Some cfg →
  (Normal tt, w) = (Normal tt, mkWorld (<[l := cfg]> (objects w)) (settled w)).
Proof. intros H. rewrite insert_id by done. by rewrite world_eta. Qed.

Lemma headers_to_object_run l cfg w :
  objects w !! l = Some cfg →
  headers_to_object l w
  = (Normal tt, mkWorld (<[l := headers_converted cfg]> (objects w)) (settled w)).
Proof.
  intros H. unfold headers_to_object, headers_converted.
  rewrite (bind_normal _ _ _ _ _ (read_run _ _ _ H)).
  destruct (get_prop cfg "headers");
    first [ by apply set_prop_run | by apply unchanged_run ].
Qed.

Lemma drain_body_run l cfg w :
  objects w !! l = Some cfg →
  drain_body l w
  = (Normal tt, mkWorld (<[l := body_drained cfg]> (objects w)) (settled w)).
Proof.
  intros H. unfold drain_body, body_drained.
  rewrite (bind_normal _ _ _ _ _ (read_run _ _ _ H)).
  destruct (get_prop cfg "body");
    first [ by apply set_prop_run | by apply unchanged_run ].
Qed.

Lemma drop_bodyUsed_run l cfg w :
  objects w !! l = Some cfg →
  drop_bodyUsed l w
  = (Normal tt, mkWorld (<[l := bodyUsed_dropped cfg]> (objects w)) (settled w)).
Proof.
  intros H. unfold drop_bodyUsed, bodyUsed_dropped.
  rewrite (bind_normal _ _ _ _ _ (read_run _ _ _ H)).
  destruct (typeof_boolean _);
    first [ by apply delete_prop_run | by apply unchanged_run ].
Qed.

Section ExecutorLemmas.

Variable new_URL : string → option URL.

Lemma resolve_input_run url l w u cfg :
  target new_URL url = Some u →
  objects w !! l = Some cfg →
  ∃ p, resolve_input new_URL url l w
       = (Normal (Some p, Some u),
          mkWorld (<[l := merged_config url cfg]> (objects w)) (settled w)).
Proof.
  intros Hu Hl. destruct url as [r|s|u'|v]; simpl in Hu.
  - eexists. unfold resolve_input, URL_of_string. rewrite Hu.
    unfold bind at 1. unfold ret at 1.
    rewrite (bind_normal _ _ _ _ _ (read_run _ _ _ Hl)).
    reflexivity.
  - eexists. unfold resolve_input, URL_of_string. rewrite Hu.
    unfold bind, ret. simpl. rewrite insert_id by done. by rewrite world_eta.
  - injection Hu as ->. eexists. unfold resolve_input, ret. simpl.
    rewrite insert_id by done. by rewrite world_eta.
  - discriminate.
Qed.

Lemma _fetch_after_resolve url config w p u w1 cfg1 :
  resolve_input new_URL url (default httpConfig_loc config) w
  = (Normal (Some p, Some u), w1) →
  objects w1 !! default httpConfig_loc config = Some cfg1 →
  _fetch new_URL url config w
  = (Normal (request_for p u (resolved_config cfg1)),
     mkWorld (<[default httpConfig_loc config := resolved_config cfg1]> (objects w1))
             (settled w1)).
Proof.
  intros Hres Hl. unfold _fetch.
  rewrite (bind_normal _ _ _ _ _ Hres). cbn [fst snd].
  rewrite (bind_normal _ _ _ _ _ (headers_to_object_run _ _ _ Hl)).
  unfold ret at 1. unfold bind at 1.
  erewrite bind_normal; last (apply drain_body_run; cbn; apply lookup_insert_eq).
  erewrite bind_normal; last (apply drop_bodyUsed_run; cbn; apply lookup_insert_eq).
  unfold issue.
  erewrite bind_normal; last (apply read_run; cbn; apply lookup_insert_eq).
  cbn. unfold ret, request_for, resolved_config.
  by rewrite !insert_insert_eq.
Qed.

Lemma _fetch_run url config w u cfg :
  target new_URL url = Some u →
  objects w !! default httpConfig_loc config = Some cfg →
  ∃ p, _fetch new_URL url config w
       = (Normal (request_for p u (resolved_config (merged_config url cfg))),
          mkWorld (<[default httpConfig_loc config
                     := resolved_config (merged_config url cfg)]> (objects w))
                  (settled w)).
Proof.
  intros Hu Hl.
  destruct (resolve_input_run url _ w u cfg Hu Hl) as [p Hres].
  exists p. rewrite (_fetch_after_resolve _ _ _ _ _ _ (merged_config url cfg) Hres).
  - cbn. by rewrite insert_insert_eq.
  - cbn. apply lookup_insert_eq.
Qed.

End ExecutorLemmas.

(** ** [copyProperties] and [Object.fromEntries] key by key *)

Lemma copyProperties_loop_lookup (keys : list (string * value)) :
  ∀ (target : object) (k : string),
    NoDup keys.*1 →
    copyProperties_loop target keys !! k
    = match (list_to_map keys : object) !! k with
      | Some v => if typeof_function v || loose_null v then target !! k else Some v
      | None => target !! k
      end.
Proof.
  induction keys as [|[k0 v0] rest IH]; intros target k Hnd.
  - cbn. by rewrite lookup_empty.
  - apply NoDup_cons in Hnd as [Hk0 Hnd].
    assert ((list_to_map rest : object) !! k0 = None) as Hnone
      by by apply not_elem_of_list_to_map_1.
    cbn [copyProperties_loop list_to_map foldr uncurry].
    destruct (typeof_function v0 || loose_null v0) eqn:Hskip;
      rewrite IH by done; destruct (decide (k0 = k)) as [<-|Hne].
    + rewrite Hnone, lookup_insert_eq. cbn [snd]. by rewrite Hskip.
    + by rewrite lookup_insert_ne.
    + rewrite Hnone, !lookup_insert_eq. cbn [snd]. by rewrite Hskip.
    + by rewrite !lookup_insert_ne.
Qed.

Lemma copyProperties_lookup (target source : object) (k : string) :
  copyProperties target source !! k
  = match source !! k with
    | Some v => if typeof_function v || loose_null v then target !! k else Some v
    | None => target !! k
    end.
Proof.
  unfold copyProperties.
  rewrite copyProperties_loop_lookup by apply NoDup_fst_map_to_list.
  by rewrite list_to_map_to_list.
Qed.

Lemma fold_insert_list_to_map (pairs : list (string * string)) :
  ∀ m : gmap string string,
    NoDup pairs.*1 →
    fold_left (λ o kv, <[kv.1 := kv.2]> o) pairs m = list_to_map pairs ∪ m.
Proof.
  induction pairs as [|[k v] rest IH]; intros m Hnd.
  - cbn. by rewrite (left_id_L ∅ (∪)).
  - apply NoDup_cons in Hnd as [Hk Hnd].
    cbn [fold_left fst snd list_to_map foldr uncurry]. rewrite IH by done.
    rewrite <- insert_union_l.
    symmetry. apply insert_union_r. by apply not_elem_of_list_to_map_1.
Qed.

Lemma fold_insert_last_value (pairs : list (string * string)) :
  ∀ (m : gmap string string) (name : string),
    fold_left (λ o kv, <[kv.1 := kv.2]> o) pairs m !! name
    = match last_value name pairs with
      | Some v => Some v
      | None => m !! name
      end.
Proof.
  induction pairs as [|[k v] rest IH]; intros m name; [done|].
  cbn [fold_left last_value fst snd]. rewrite IH.
  destruct (last_value name rest); [done|].
  destruct (String.eqb_spec k name) as [->|Hne].
  - by rewrite lookup_insert_eq.
  - by rewrite lookup_insert_ne.
Qed.

(** [Object.fromEntries] keeps, for every name, the value of the last
    pair with that name. *)
Lemma Object_fromEntries_lookup (pairs : list (string * string)) name :
  Object_fromEntries pairs !! name = last_value name pairs.
Proof.
  unfold Object_fromEntries. rewrite fold_insert_last_value, lookup_empty.
  by destruct (last_value name pairs).
Qed.

Lemma last_value_elem_of (pairs : list (string * string)) name v :
  last_value name pairs = Some v → (name, v) ∈ pairs.
Proof.
  induction pairs as [|[k v0] rest IH]; [done|]. cbn.
  destruct (last_value name rest) as [v'|].
  - intros [= <-]. right. by apply IH.
  - destruct (String.eqb_spec k name) as [->|]; [|done].
    intros [= <-]. left.
Qed.

(** When no name occurs twice, it keeps exactly the pairs given. *)
Lemma last_value_NoDup (pairs : list (string * string)) name v :
  NoDup pairs.*1 →
  last_value name pairs = Some v ↔ (name, v) ∈ pairs.
Proof.
  intros Hnd. split; [apply last_value_elem_of|].
  induction pairs as [|[k v0] rest IH]; [by intros ?%elem_of_nil|].
  apply NoDup_cons in Hnd as [Hk Hnd]. cbn in Hk.
  intros [[= -> ->]|Hin]%elem_of_cons; cbn.
  - destruct (last_value k rest) as [v'|] eqn:Hl.
    + destruct Hk. apply last_value_elem_of in Hl.
      apply list_elem_of_fmap. by exists (k, v').
    + by rewrite String.eqb_refl.
  - by rewrite (IH Hnd Hin).
Qed.

(** ** Strings *)

Lemma append_cons a (s t : string) : String a s +:+ t = String a (s +:+ t).
Proof. reflexivity. Qed.

Lemma append_empty_r (s : string) : s +:+ "" = s.
Proof. induction s as [|a s IH]; [done|]. by rewrite append_cons, IH. Qed.

Lemma append_assoc (s t u : string) : (s +:+ t) +:+ u = s +:+ (t +:+ u).
Proof. induction s as [|a s IH]; [done|]. by rewrite !append_cons, IH. Qed.

Lemma append_if_nonempty (path s : string) :
  (if truthy (VString s) then path +:+ s else path) = path +:+ s.
Proof.
  cbn. destruct (String.eqb_spec s "") as [->|]; cbn; [|done].
  by rewrite append_empty_r.
Qed.

Lemma request_path_concat (u : URL) :
  request_path u = (pathname u +:+ search u) +:+ hash u.
Proof. unfold request_path. by rewrite !append_if_nonempty. Qed.

(** ** Fields the executor leaves alone *)

Lemma headers_converted_other cfg k :
  k ≠ "headers" → headers_converted cfg !! k = cfg !! k.
Proof.
  intros Hk. unfold headers_converted.
  destruct (get_prop cfg "headers"); try done. by rewrite lookup_insert_ne.
Qed.

Lemma body_drained_other cfg k :
  k ≠ "body" → body_drained cfg !! k = cfg !! k.
Proof.
  intros Hk. unfold body_drained.
  destruct (get_prop cfg "body"); try done. by rewrite lookup_insert_ne.
Qed.

Lemma bodyUsed_dropped_other cfg k :
  k ≠ "bodyUsed" → bodyUsed_dropped cfg !! k = cfg !! k.
Proof.
  intros Hk. unfold bodyUsed_dropped.
  destruct (typeof_boolean _); try done. by rewrite lookup_delete_ne.
Qed.

Lemma resolved_config_other cfg k :
  k ≠ "headers" → k ≠ "body" → k ≠ "bodyUsed" →
  resolved_config cfg !! k = cfg !! k.
Proof.
  intros. unfold resolved_config.
  by rewrite bodyUsed_dropped_other, body_drained_other, headers_converted_other.
Qed.

(** A field of the options that is neither set by [_fetch] itself nor
    held back from the transport is the field of the final config. *)
Lemma request_for_option p u cfg k :
  k ≠ "silent" → k ≠ "onData" →
  k ≠ "path" → k ≠ "port" → k ≠ "hostname" →
  options (request_for p u cfg) !! k = cfg !! k.
Proof.
  intros. cbn. unfold request_options, spread.
  rewrite lookup_union, !lookup_delete_ne, !lookup_insert_ne, lookup_empty by done.
  by destruct (cfg !! k).
Qed.

Lemma request_for_path p u cfg :
  cfg !! "path" = None →
  options (request_for p u cfg) !! "path" = Some (VString (request_path u)).
Proof.
  intros Hn. cbn. unfold request_options, spread.
  rewrite lookup_union, !lookup_delete_ne, Hn by done.
  by rewrite lookup_insert_eq.
Qed.

Section EntryPoints.

Variable new_URL : string → option URL.

Lemma fetch_run url config h u cfg :
  target new_URL url = Some u →
  h !! default httpConfig_loc config = Some cfg →
  ∃ p, fetch new_URL url config h
       = (Normal (request_for p u (resolved_config (merged_config url cfg))),
          mkWorld (<[default httpConfig_loc config
                     := resolved_config (merged_config url cfg)]> h)
                  Pending).
Proof. intros Hu Hl. unfold fetch, call. by apply _fetch_run. Qed.

Lemma verb_call_run verb url config h u cfg :
  target new_URL url = Some u →
  caller_fields h config = Some cfg →
  ∃ p, verb_call new_URL verb url config h
       = (Normal (request_for p u
                    (resolved_config
                       (merged_config url (<["method" := VString verb]> cfg)))),
          mkWorld (<[fresh (dom h)
                     := resolved_config
                          (merged_config url (<["method" := VString verb]> cfg))]> h)
                  Pending).
Proof.
  intros Hu Hc. unfold verb_call, call.
  assert (with_method verb config (mkWorld h Pending)
          = (Normal (fresh (dom h)),
             mkWorld (<[fresh (dom h) := <["method" := VString verb]> cfg]> h)
                     Pending)) as Hw.
  { unfold with_method, spread. destruct config as [l|]; cbn in Hc.
    - rewrite (bind_normal _ _ _ _ _ (read_run l cfg (mkWorld h Pending) Hc)).
      unfold alloc. cbn. by rewrite (right_id_L ∅ (∪)).
    - injection Hc as <-. unfold bind, ret, alloc. cbn.
      by rewrite (right_id_L ∅ (∪)). }
  rewrite (bind_normal _ _ _ _ _ Hw).
  destruct (_fetch_run new_URL url (Some (fresh (dom h)))
              (mkWorld (<[fresh (dom h) := <["method" := VString verb]> cfg]> h)
                       Pending)
              u (<["method" := VString verb]> cfg) Hu) as [p Hp].
  { cbn. apply lookup_insert_eq. }
  exists p. rewrite Hp. cbn. by rewrite insert_insert_eq.
Qed.

End EntryPoints.

(** * Input shapes and transport selection *)

Section InputShapes.

Variable new_URL : string → option URL.

(** A string has no [protocol] property, so the test on line 90 compares
    [undefined] with ['https:'] and every string input is sent to the
    plain transport. *)
Lemma string_input_always_plain s config h rq w :
  fetch new_URL (InString s) config h = (Normal rq, w) → via rq = http.
Proof.
  unfold fetch, call. intros Hrun.
  destruct (new_URL s) as [u|] eqn:Hu.
  - assert (resolve_input new_URL (InString s) (default httpConfig_loc config)
              (mkWorld h Pending)
            = (Normal (Some http, Some u), mkWorld h Pending)) as Hres.
    { unfold resolve_input, URL_of_string. by rewrite Hu. }
    destruct (h !! default httpConfig_loc config) as [cfg|] eqn:Hl.
    + rewrite (_fetch_after_resolve _ _ _ _ _ _ _ cfg Hres) in Hrun by done.
      by injection Hrun as <- _.
    + unfold _fetch in Hrun. rewrite (bind_normal _ _ _ _ _ Hres) in Hrun.
      unfold headers_to_object, read, bind in Hrun. cbn in Hrun.
      by rewrite Hl in Hrun.
  - unfold _fetch, resolve_input, URL_of_string in Hrun. rewrite Hu in Hrun.
    discriminate.
Qed.

Lemma headers_to_object_settled l w :
  settled (headers_to_object l w).2 = settled w.
Proof.
  unfold headers_to_object, bind, read.
  destruct (objects w !! l) as [cfg|] eqn:Hl; [|done].
  destruct (get_prop cfg "headers"); try done.
  unfold set_prop, bind, read. by rewrite Hl.
Qed.

Lemma unrecognised_input_run v config w :
  ∃ e w', _fetch new_URL (InOther v) config w = (Throw e, w')
          ∧ settled w'
            = reject (mkFetchError "Invalid URL" (VNumber 400) "Bad Request")
                     (settled w).
Proof.
  unfold _fetch.
  erewrite bind_normal; last by (unfold resolve_input, do_reject, bind, ret).
  cbn [fst snd].
  set (w1 := mkWorld _ _).
  pose proof (headers_to_object_settled (default httpConfig_loc config) w1) as Hs.
  destruct (headers_to_object _ w1) as [[[]|e] w2] eqn:Hh; cbn in Hs.
  - rewrite (bind_normal _ _ _ _ _ Hh). eexists _, w2. split; [done|]. by rewrite Hs.
  - rewrite (bind_throw _ _ _ _ _ Hh). eexists _, w2. split; [done|]. by rewrite Hs.
Qed.

End InputShapes.

(** C1 (the code departs from it).  A string input is parsed as an
    absolute URL, but the transport is not selected from the parsed
    scheme: [fetch("https://example.com/")] parses to a URL whose scheme is
    [https:] and still goes to the plain transport, while the same URL
    passed as a [URL] object goes to the TLS-capable one. *)
Theorem https_string_goes_to_plain_transport :
  protocol <$> simple_URL "https://example.com/" = Some "https:"
  ∧ went_via (exports.fetch simple_URL (InString "https://example.com/")
                None module_heap)
    = Some http
  ∧ went_via (exports.fetch simple_URL
                (InURL (mkURL "https:" "example.com" "" "/" "" ""))
                None module_heap)
    = Some https.
Proof. repeat split; vm_compute; reflexivity. Qed.

(** C7.  An input that is not a [Request], not a string and not a [URL]
    (a plain number, say) makes the call's Promise reject with
    [FetchError("Invalid URL", 400, "Bad Request")], through [fetch] and
    through every per-verb entry point; the executor then stops on a
    [TypeError], which does not touch the settled Promise. *)
Theorem unrecognised_input_rejected
    (new_URL : string → option URL) (url : input) (config : option loc)
    (h : heap) :
  instanceof_Request url = false →
  typeof_string url = false →
  instanceof_URL url = false →
  settled (exports.fetch new_URL url config h).2
  = Rejected (mkFetchError "Invalid URL" (VNumber 400) "Bad Request")
  ∧ ∀ verb cfg,
      caller_fields h config = Some cfg →
      settled (verb_call new_URL verb url config h).2
      = Rejected (mkFetchError "Invalid URL" (VNumber 400) "Bad Request").
Proof.
  intros Hr Hs Hu. destruct url as [r|s|u|v]; try discriminate. split.
  - unfold exports.fetch, fetch, call.
    destruct (unrecognised_input_run new_URL v config (mkWorld h Pending))
      as (e & w' & Hrun & Hset).
    rewrite Hrun. cbn [snd]. by rewrite Hset.
  - intros verb cfg Hc. unfold verb_call, call.
    assert (∃ l w1, with_method verb config (mkWorld h Pending) = (Normal l, w1)
                    ∧ settled w1 = Pending) as (l & w1 & Hw & Hp).
    { unfold with_method. destruct config as [l0|]; cbn in Hc.
      - rewrite (bind_normal _ _ _ _ _ (read_run l0 cfg (mkWorld h Pending) Hc)).
        unfold alloc. by eexists _, _.
      - unfold bind, ret, alloc. by eexists _, _. }
    rewrite (bind_normal _ _ _ _ _ Hw).
    destruct (unrecognised_input_run new_URL v (Some l) w1)
      as (e & w' & Hrun & Hset).
    rewrite Hrun. cbn [snd]. by rewrite Hset, Hp.
Qed.

Lemma unrecognised_input_rejected_witness :
  settled (exports.fetch simple_URL (InOther (VNumber 42)) None module_heap).2
  = Rejected (mkFetchError "Invalid URL" (VNumber 400) "Bad Request")
  ∧ settled (exports.get simple_URL (InOther (VNumber 42)) None module_heap).2
    = Rejected (mkFetchError "Invalid URL" (VNumber 400) "Bad Request").
Proof.
  pose proof (unrecognised_input_rejected simple_URL (InOther (VNumber 42))
                None module_heap eq_refl eq_refl eq_refl) as [Hf Hv].
  split; [exact Hf | exact (Hv "GET" ∅ eq_refl)].
Defined.

(** * The request handed to the transport *)

(** C6, the claim as it is worded, fails on a configuration that has a
    [path] field: [fetch("http://example.com/a", { path: "/b" })] hands the
    transport the path ["/b"], not [pathname + search + hash = "/a"]. *)
Lemma config_path_overrides_url_path :
  ∃ rq w u,
    simple_URL "http://example.com/a" = Some u
    ∧ exports.fetch simple_URL (InString "http://example.com/a") (Some 1%nat)
        (<[1%nat := {["path" := VString "/b"]}]> module_heap)
      = (Normal rq, w)
    ∧ options rq !! "path" = Some (VString "/b")
    ∧ options rq !! "path"
      ≠ Some (VString ((pathname u +:+ search u) +:+ hash u)).
Proof.
  eexists _, _, _. split; [reflexivity|]. split; [vm_compute; reflexivity|].
  split; [vm_compute; reflexivity|]. vm_compute. discriminate.
Qed.

(** C6, amended.  Whenever the input of a call resolves to a URL and the
    configuration of the call (after the properties of a [Request] input
    are copied) has no [path] field of its own, the call issues a request
    whose [path] option is [pathname + search + hash], in that order,
    through [fetch] and through every per-verb entry point; a per-verb
    call of a string or [URL] input carries the verb as its [method].
    The witness is the scenario
    [get("http://example.com/search?q=1#frag")]. *)
Theorem path_is_pathname_search_hash
    (new_URL : string → option URL) (url : input) (u : URL) :
  target new_URL url = Some u →
  (∀ config h cfg,
     h !! default httpConfig_loc config = Some cfg →
     merged_config url cfg !! "path" = None →
     ∃ rq w,
       exports.fetch new_URL url config h = (Normal rq, w)
       ∧ options rq !! "path"
         = Some (VString ((pathname u +:+ search u) +:+ hash u)))
  ∧ (∀ verb config h cfg,
       caller_fields h config = Some cfg →
       merged_config url (<["method" := VString verb]> cfg) !! "path" = None →
       ∃ rq w,
         verb_call new_URL verb url config h = (Normal rq, w)
         ∧ options rq !! "path"
           = Some (VString ((pathname u +:+ search u) +:+ hash u))
         ∧ (instanceof_Request url = false →
            options rq !! "method" = Some (VString verb))).
Proof.
  intros Hu. split.
  - intros config h cfg Hl Hpath.
    destruct (fetch_run new_URL url config h u cfg Hu Hl) as [p Hrun].
    eexists _, _. split; [exact Hrun|].
    rewrite request_for_path, request_path_concat; [done|].
    by rewrite resolved_config_other.
  - intros verb config h cfg Hc Hpath.
    destruct (verb_call_run new_URL verb url config h u cfg Hu Hc) as [p Hrun].
    eexists _, _. split; [exact Hrun|]. split.
    + rewrite request_for_path, request_path_concat; [done|].
      by rewrite resolved_config_other.
    + intros Hreq. rewrite request_for_option, resolved_config_other by done.
      destruct url; try done; cbn; by rewrite lookup_insert_eq.
Qed.

Lemma path_is_pathname_search_hash_witness :
  ∃ rq w,
    exports.get simple_URL (InString "http://example.com/search?q=1#frag")
      None module_heap
    = (Normal rq, w)
    ∧ options rq !! "path" = Some (VString "/search?q=1#frag")
    ∧ options rq !! "method" = Some (VString "GET").
Proof.
  destruct (proj2 (path_is_pathname_search_hash simple_URL
                     (InString "http://example.com/search?q=1#frag")
                     (mkURL "http:" "example.com" "" "/search" "?q=1" "#frag")
                     eq_refl)
              "GET" None module_heap ∅ eq_refl eq_refl)
    as (rq & w & Hrun & Hpath & Hmethod).
  exists rq, w. split; [exact Hrun|]. split; [exact Hpath | exact (Hmethod eq_refl)].
Defined.

(** * Request inputs and the configuration object *)

Lemma ReadStream_loop_append (chunks : list string) :
  ∀ result, ReadStream_loop result chunks = result +:+ foldr String.append "" chunks.
Proof.
  induction chunks as [|c rest IH]; intros result; cbn.
  - by rewrite append_empty_r.
  - by rewrite IH, append_assoc.
Qed.

(** [ReadStream] returns the chunks of the stream, joined in order. *)
Lemma ReadStream_joins (chunks : list string) :
  ReadStream chunks = foldr String.append "" chunks.
Proof. unfold ReadStream. by rewrite ReadStream_loop_append. Qed.



Lemma get_prop_Some (cfg : object) k v : cfg !! k = Some v → get_prop cfg k = v.
Proof. unfold get_prop. by intros ->. Qed.

Lemma resolved_config_headers cfg hd :
  cfg !! "headers" = Some (VHeaders hd) →
  resolved_config cfg !! "headers" = Some (VObject (Object_fromEntries hd)).
Proof.
  intros H. unfold resolved_config.
  rewrite bodyUsed_dropped_other, body_drained_other by done.
  unfold headers_converted. rewrite (get_prop_Some _ _ _ H).
  cbv beta iota. by rewrite lookup_insert_eq.
Qed.

Lemma resolved_config_body cfg chunks :
  cfg !! "body" = Some (VReadableStream chunks) →
  resolved_config cfg !! "body" = Some (VString (ReadStream chunks)).
Proof.
  intros H. unfold resolved_config.
  rewrite bodyUsed_dropped_other by done.
  unfold body_drained.
  erewrite get_prop_Some; last by rewrite headers_converted_other.
  cbv beta iota. by rewrite lookup_insert_eq.
Qed.

Lemma resolved_config_bodyUsed cfg b :
  cfg !! "bodyUsed" = Some (VBoolean b) →
  resolved_config cfg !! "bodyUsed" = None.
Proof.
  intros H. unfold resolved_config, bodyUsed_dropped.
  erewrite get_prop_Some;
    last by rewrite body_drained_other, headers_converted_other.
  cbv beta iota delta [typeof_boolean]. by rewrite lookup_delete_eq.
Qed.


(** C9, the claim as it is worded, fails on a [headers] value that has an
    [entries()] iteration but is not an instance of [Headers]: a [Map] of
    header names to values reaches the transport as the [Map] it was. *)
Lemma Map_headers_not_converted :
  ∃ rq w,
    exports.fetch simple_URL (InString "http://example.com/") (Some 1%nat)
      (<[1%nat := {["headers" := VMap [("accept", "text/html")]]}]> module_heap)
    = (Normal rq, w)
    ∧ has_entries (VMap [("accept", "text/html")]) = true
    ∧ options rq !! "headers" = Some (VMap [("accept", "text/html")])
    ∧ objects w !! 1%nat = Some {["headers" := VMap [("accept", "text/html")]]}.
Proof.
  eexists _, _. split; [vm_compute; reflexivity|].
  repeat split; vm_compute; reflexivity.
Qed.

(** A [Headers] that holds two [Set-Cookie] values yields two pairs with
    the same name, and the plain mapping keeps the last of them only. *)
Lemma repeated_Set_Cookie_keeps_last :
  ∃ rq w,
    exports.fetch simple_URL (InString "http://example.com/") (Some 1%nat)
      (<[1%nat := {["headers" := VHeaders [("set-cookie", "a=1");
                                           ("set-cookie", "b=2")]]}]>
         module_heap)
    = (Normal rq, w)
    ∧ options rq !! "headers" = Some (VObject {["set-cookie" := "b=2"]}).
Proof.
  eexists _, _. split; vm_compute; reflexivity.
Qed.

(** C9, amended.  When the configuration of a call (after the properties
    of a [Request] input are copied) carries [headers] as an instance of
    [Headers], the call replaces it, before the request is issued, by a
    plain mapping: the object the caller passed and the options of the
    request both hold that mapping.  The mapping gives every name the
    last value that [entries()] yields for it; so it has exactly the
    pairs that [entries()] yields whenever no name is yielded twice. *)
Theorem Headers_instance_converted
    (new_URL : string → option URL) (url : input) (config : option loc)
    (h : heap) (cfg : object) (u : URL) (hd : list (string * string)) :
  target new_URL url = Some u →
  h !! default httpConfig_loc config = Some cfg →
  merged_config url cfg !! "headers" = Some (VHeaders hd) →
  ∃ rq w cfg' plain,
    exports.fetch new_URL url config h = (Normal rq, w)
    ∧ objects w !! default httpConfig_loc config = Some cfg'
    ∧ cfg' !! "headers" = Some (VObject plain)
    ∧ options rq !! "headers" = Some (VObject plain)
    ∧ (∀ name, plain !! name = last_value name (Headers_entries hd))
    ∧ (NoDup (Headers_entries hd).*1 →
       ∀ name v, plain !! name = Some v ↔ (name, v) ∈ Headers_entries hd).
Proof.
  intros Hu Hl Hh.
  destruct (fetch_run new_URL url config h u cfg Hu Hl) as [p Hrun].
  exists (request_for p u (resolved_config (merged_config url cfg))).
  eexists _, (resolved_config (merged_config url cfg)), (Object_fromEntries hd).
  split; [exact Hrun|]. split; [apply lookup_insert_eq|].
  split; [by apply resolved_config_headers|]. split; [|split].
  - rewrite request_for_option by done. by apply resolved_config_headers.
  - intros name. apply Object_fromEntries_lookup.
  - intros Hnd name v. rewrite Object_fromEntries_lookup.
    by apply last_value_NoDup.
Qed.

Lemma Headers_instance_converted_witness :
  ∃ rq w cfg' plain,
    exports.fetch simple_URL
      (InRequest (mkRequest "http://example.com/"
                    (<["method" := VString "GET"]>
                     {["headers" := VHeaders [("accept", "text/html");
                                              ("x-id", "7")]]})))
      None module_heap
    = (Normal rq, w)
    ∧ objects w !! httpConfig_loc = Some cfg'
    ∧ cfg' !! "headers" = Some (VObject plain)
    ∧ options rq !! "headers" = Some (VObject plain)
    ∧ plain !! "accept" = Some "text/html"
    ∧ plain !! "x-id" = Some "7".
Proof.
  destruct (Headers_instance_converted simple_URL
              (InRequest (mkRequest "http://example.com/"
                            (<["method" := VString "GET"]>
                             {["headers" := VHeaders [("accept", "text/html");
                                                      ("x-id", "7")]]})))
              None module_heap httpConfig
              (mkURL "http:" "example.com" "" "/" "" "")
              [("accept", "text/html"); ("x-id", "7")])
    as (rq & w & cfg' & plain & Hrun & Hcfg & Hh & Ho & Hlast & _);
    [reflexivity | reflexivity | vm_compute; reflexivity |].
  exists rq, w, cfg', plain.
  split; [exact Hrun|]. split; [exact Hcfg|]. split; [exact Hh|].
  split; [exact Ho|]. split; rewrite Hlast; reflexivity.
Defined.

(** ** What a call leaves of its configuration object *)

Lemma get_prop_ext (a b : object) k : a !! k = b !! k → get_prop a k = get_prop b k.
Proof. unfold get_prop. by intros ->. Qed.

Lemma headers_converted_clean cfg :
  instanceof_Headers (get_prop (headers_converted cfg) "headers") = false.
Proof.
  unfold headers_converted. destruct (get_prop cfg "headers") eqn:E;
    rewrite ?E; try done.
  unfold get_prop. by rewrite lookup_insert_eq.
Qed.

Lemma body_drained_clean cfg :
  instanceof_ReadableStream (get_prop (body_drained cfg) "body") = false.
Proof.
  unfold body_drained. destruct (get_prop cfg "body") eqn:E;
    rewrite ?E; try done.
  unfold get_prop. by rewrite lookup_insert_eq.
Qed.

Lemma bodyUsed_dropped_clean cfg :
  typeof_boolean (get_prop (bodyUsed_dropped cfg) "bodyUsed") = false.
Proof.
  unfold bodyUsed_dropped.
  destruct (typeof_boolean (get_prop cfg "bodyUsed")) eqn:E; [|done].
  unfold get_prop. by rewrite lookup_delete_eq.
Qed.

Lemma resolved_config_clean cfg :
  instanceof_Headers (get_prop (resolved_config cfg) "headers") = false
  ∧ instanceof_ReadableStream (get_prop (resolved_config cfg) "body") = false
  ∧ typeof_boolean (get_prop (resolved_config cfg) "bodyUsed") = false.
Proof.
  unfold resolved_config. split; [|split].
  - erewrite get_prop_ext;
      last by rewrite bodyUsed_dropped_other, body_drained_other.
    apply headers_converted_clean.
  - erewrite get_prop_ext; last by rewrite bodyUsed_dropped_other.
    apply body_drained_clean.
  - apply bodyUsed_dropped_clean.
Qed.

Lemma headers_converted_id cfg :
  instanceof_Headers (get_prop cfg "headers") = false → headers_converted cfg = cfg.
Proof. unfold headers_converted. by destruct (get_prop cfg "headers"). Qed.

Lemma body_drained_id cfg :
  instanceof_ReadableStream (get_prop cfg "body") = false → body_drained cfg = cfg.
Proof. unfold body_drained. by destruct (get_prop cfg "body"). Qed.

Lemma bodyUsed_dropped_id cfg :
  typeof_boolean (get_prop cfg "bodyUsed") = false → bodyUsed_dropped cfg = cfg.
Proof. unfold bodyUsed_dropped. by intros ->. Qed.

Lemma resolved_config_idem cfg :
  resolved_config (resolved_config cfg) = resolved_config cfg.
Proof.
  destruct (resolved_config_clean cfg) as (Hh & Hb & Hu).
  unfold resolved_config at 1.
  by rewrite (headers_converted_id _ Hh), (body_drained_id _ Hb),
    (bodyUsed_dropped_id _ Hu).
Qed.

(** * Sharing of configuration objects between calls *)

(** C10.  [fetch] works on the configuration object the caller passed,
    not on a copy.  After the call the object at the caller's own location
    holds what the call made of it: the properties copied from a [Request]
    input, a [Headers] instance replaced by a plain mapping, a
    [ReadableStream] body replaced by the string drained from it, and a
    boolean [bodyUsed] removed.  A later call that is passed the same
    object with a string or [URL] input is issued from the object in that
    state. *)
Theorem caller_config_mutated_in_place
    (new_URL : string → option URL) (url : input) (l : loc) (h : heap)
    (cfg : object) (u : URL) :
  target new_URL url = Some u →
  h !! l = Some cfg →
  ∃ rq w merged,
    exports.fetch new_URL url (Some l) h = (Normal rq, w)
    ∧ objects w !! l = Some (resolved_config merged)
    ∧ (∀ r k v, url = InRequest r →
         Request_enumerable r !! k = Some v →
         typeof_function v || loose_null v = false →
         merged !! k = Some v)
    ∧ (∀ hd, merged !! "headers" = Some (VHeaders hd) →
         resolved_config merged !! "headers"
         = Some (VObject (Object_fromEntries (Headers_entries hd))))
    ∧ (∀ chunks, merged !! "body" = Some (VReadableStream chunks) →
         resolved_config merged !! "body"
         = Some (VString (foldr String.append "" chunks)))
    ∧ (∀ b, merged !! "bodyUsed" = Some (VBoolean b) →
         resolved_config merged !! "bodyUsed" = None)
    ∧ (∀ url2 u2,
         target new_URL url2 = Some u2 →
         instanceof_Request url2 = false →
         ∃ p2, exports.fetch new_URL url2 (Some l) (objects w)
               = (Normal (request_for p2 u2 (resolved_config merged)),
                  mkWorld (objects w) Pending)).
Proof.
  intros Hu Hl.
  destruct (fetch_run new_URL url (Some l) h u cfg Hu Hl) as [p Hrun].
  eexists _, _, (merged_config url cfg). split; [exact Hrun|].
  cbn [objects default].
  split; [apply lookup_insert_eq|]. split.
  { intros r k v -> Hk Hcopy. cbn. by rewrite copyProperties_lookup, Hk, Hcopy. }
  split; [apply resolved_config_headers|]. split.
  { intros chunks Hb. rewrite <- ReadStream_joins. by apply resolved_config_body. }
  split; [apply resolved_config_bodyUsed|].
  intros url2 u2 Hu2 Hreq.
  destruct (fetch_run new_URL url2 (Some l)
              (<[l := resolved_config (merged_config url cfg)]> h) u2
              (resolved_config (merged_config url cfg)) Hu2
              (lookup_insert_eq _ _ _)) as [p2 Hrun2].
  exists p2. unfold exports.fetch, id. rewrite Hrun2. cbn [default]. unfold id.
  assert (merged_config url2 (resolved_config (merged_config url cfg))
          = resolved_config (merged_config url cfg)) as ->
    by by destruct url2.
  by rewrite resolved_config_idem, insert_insert_eq.
Qed.

Lemma caller_config_mutated_in_place_witness :
  ∃ rq w,
    exports.fetch simple_URL
      (InRequest (mkRequest "http://example.com/"
                    (<["method" := VString "POST"]>
                     (<["headers" := VHeaders [("accept", "text/html")]]>
                      (<["body" := VReadableStream ["ab"; "cd"]]>
                       (<["bodyUsed" := VBoolean false]> ∅))))))
      (Some 1%nat) (<[1%nat := ∅]> module_heap)
    = (Normal rq, w)
    ∧ objects w !! 1%nat
      = Some (<["url" := VString "http://example.com/"]>
              (<["method" := VString "POST"]>
               (<["headers" := VObject {["accept" := "text/html"]}]>
                (<["body" := VString "abcd"]> ∅)))).
Proof.
  destruct (caller_config_mutated_in_place simple_URL
              (InRequest (mkRequest "http://example.com/"
                            (<["method" := VString "POST"]>
                             (<["headers" := VHeaders [("accept", "text/html")]]>
                              (<["body" := VReadableStream ["ab"; "cd"]]>
                               (<["bodyUsed" := VBoolean false]> ∅))))))
              1%nat (<[1%nat := ∅]> module_heap) ∅
              (mkURL "http:" "example.com" "" "/" "" ""))
    as (rq & w & merged & Hrun & _); [reflexivity | vm_compute; reflexivity |].
  exists rq, w. split; [exact Hrun|].
  vm_compute in Hrun. injection Hrun as _ <-. vm_compute. reflexivity.
Defined.

(** C3 (the code departs from it).  [fetch] without a configuration
    argument works on the module-level [httpConfig] object itself.  A
    first call [fetch(new Request("http://a.test/", { method: "POST" }))]
    copies the properties of the request into it; a second call
    [fetch("http://b.test/")], which on a freshly loaded module is a
    [GET], is then issued as a [POST]. *)
Theorem shared_baseline_leaks_between_calls :
  let first :=
    exports.fetch simple_URL
      (InRequest (mkRequest "http://a.test/" {["method" := VString "POST"]}))
      None module_heap in
  let alone :=
    exports.fetch simple_URL (InString "http://b.test/") None module_heap in
  let second :=
    exports.fetch simple_URL (InString "http://b.test/") None
      (objects first.2) in
  (∃ rq, alone.1 = Normal rq ∧ options rq !! "method" = Some (VString "GET"))
  ∧ (∃ rq, second.1 = Normal rq ∧ options rq !! "method" = Some (VString "POST"))
  ∧ objects first.2 !! httpConfig_loc ≠ module_heap !! httpConfig_loc.
Proof.
  cbn zeta. split; [|split].
  - eexists. split; vm_compute; reflexivity.
  - eexists. split; vm_compute; reflexivity.
  - vm_compute. discriminate.
Qed.

(** * Defaults *)


(** The per-verb entry points always pass [_fetch] an object of their
    own, so the default parameter never applies to them either:
    [get("http://example.com/")] issues a request with no [timeout]. *)
Lemma get_takes_no_defaults :
  ∃ rq w,
    exports.get simple_URL (InString "http://example.com/") None module_heap
    = (Normal rq, w)
    ∧ options rq !! "timeout" = None
    ∧ options rq !! "timeout" ≠ Some (VNumber 5000)
    ∧ options rq !! "headers" = None
    ∧ silent rq = VUndefined.
Proof.
  eexists _, _. split; [vm_compute; reflexivity|].
  repeat split; vm_compute; (reflexivity || discriminate).
Qed.





(** * The listeners *)

Example utf8_toString_whole :
  utf8_toString [x61; xc3; xa9; x62] = "aéb".
Proof. reflexivity. Qed.

Example utf8_toString_cut :
  utf8_toString [x61; xc3] = "a" +:+ replacement
  ∧ utf8_toString [xa9; x62] = replacement +:+ "b".
Proof. split; reflexivity. Qed.

Section ListenerLemmas.

Variable toString : Buffer → string.
Variable rq : ClientRequest.

Lemma on_data_inv chunk st c st' :
  on_data toString rq chunk st = (c, st') →
  data st' = data st +:+ toString chunk
  ∧ res st' = res st
  ∧ outcome st' = outcome st
  ∧ destroyed st' = destroyed st
  ∧ ended st' = ended st.
Proof.
  unfold on_data.
  destruct (truthy (onData rq)); [destruct (typeof_function (onData rq))|];
    intros [= <- <-]; done.
Qed.

(** The buffer [data] holds the text of each chunk of the trace,
    converted on its own, in arrival order. *)
Lemma steps_data st0 tr st :
  steps toString rq st0 tr st →
  (res st0 = None → data st0 = "") →
  data st = data st0 +:+ received toString tr.
Proof.
  induction 1 as [st|st ev st' tr st'' Hstep Hsteps IH]; intros Hinit.
  - by rewrite append_empty_r.
  - inversion Hstep as [code msg ? Hd Hr|chunk ? r c ? Hd He Hr Hon|? r Hd He Hr| |];
      subst; cbn [received].
    + rewrite IH by done. cbn. by rewrite (Hinit Hr).
    + destruct (on_data_inv _ _ _ _ Hon) as (Hdata & Hres & _).
      rewrite IH by (rewrite Hres, Hr; done).
      by rewrite Hdata, append_assoc.
    + by rewrite IH.
    + by rewrite IH.
    + by rewrite IH.
Qed.

(** A destroyed request stays destroyed. *)
Lemma steps_destroyed st0 tr st :
  steps toString rq st0 tr st → destroyed st0 = true → destroyed st = true.
Proof.
  induction 1 as [|st ev st' tr st'' Hstep Hsteps IH]; [done|].
  intros Hd. apply IH. inversion Hstep; subst; cbn; congruence.
Qed.

(** Until a completion, an error or a timeout, the Promise is as it
    was. *)
Lemma steps_unsettled st0 tr st :
  steps toString rq st0 tr st →
  Forall (λ ev, is_completion_or_error ev = false) tr →
  destroyed st = false →
  outcome st = outcome st0.
Proof.
  induction 1 as [|st ev st' tr st'' Hstep Hsteps IH]; [done|].
  intros Hall Hd. apply Forall_cons in Hall as [Hev Hall].
  rewrite IH by done.
  inversion Hstep as [| chunk ? r c ? ? ? ? Hon | | |]; subst; try done.
  - by destruct (on_data_inv _ _ _ _ Hon) as (_ & _ & -> & _).
  - pose proof (steps_destroyed _ _ _ Hsteps eq_refl). congruence.
Qed.

(** After the teardown only ['error'] events arrive, and they change
    neither the settled Promise nor the buffered body. *)
Lemma steps_after_destroy st1 tr st2 :
  steps toString rq st1 tr st2 →
  destroyed st1 = true →
  outcome st1 ≠ Pending →
  Forall (λ ev, is_chunk_or_completion ev = false) tr
  ∧ Forall (λ ev, ev ≠ Timeout) tr
  ∧ outcome st2 = outcome st1
  ∧ data st2 = data st1
  ∧ delivered st2 = delivered st1
  ∧ res st2 = res st1.
Proof.
  induction 1 as [|st ev st' tr st'' Hstep Hsteps IH]; intros Hd Hp.
  - by repeat split.
  - inversion Hstep; subst; try congruence.
    assert (outcome (on_error msg code st) = outcome st) as Ho.
    { cbn. by destruct (outcome st). }
    destruct IH as (H1 & H2 & H3 & H4 & H5 & H6); [done|by rewrite Ho|].
    repeat split; try (constructor; done); try done. by rewrite H3.
Qed.

End ListenerLemmas.

Lemma status_test (code : Z) (quiet : bool) :
  (code >=? 400)%Z && negb quiet = true ↔ (400 ≤ code)%Z ∧ quiet = false.
Proof.
  rewrite andb_true_iff, negb_true_iff, Z.geb_leb, Z.leb_le. done.
Qed.

(** C2 (the code departs from it).  The ['data'] listener appends each
    chunk with [data += chunk], which converts every [Buffer] to a string
    on its own.  A response with status 200 whose body, the four bytes of
    ["aéb"], arrives as the chunks [61 C3] and [A9 62] resolves the
    Promise with a response whose [text()] is ["a"], two replacement
    characters and ["b"], not the body that was received. *)
Theorem split_character_garbles_text :
  ∃ st res',
    steps utf8_toString (mkClientRequest http ∅ VUndefined VNull)
      (issued Pending)
      [Response 200 "OK"; Data [x61; xc3]; Data [xa9; x62]; End] st
    ∧ outcome st = Fulfilled res'
    ∧ text res' = Some ("a" +:+ replacement +:+ replacement +:+ "b")
    ∧ utf8_toString ([x61; xc3] ++ [xa9; x62]) = "aéb"
    ∧ text res' ≠ Some (utf8_toString ([x61; xc3] ++ [xa9; x62])).
Proof.
  eexists _, _. split.
  { eapply steps_cons; [by apply step_response|].
    eapply steps_cons; [by eapply step_data|].
    eapply steps_cons; [by eapply step_data|].
    eapply steps_cons; [by eapply step_end|].
    apply steps_nil. }
  split; [reflexivity|]. split; [reflexivity|]. split; [reflexivity|].
  vm_compute. discriminate.
Qed.

(** X19.  When the response of a call completes while its Promise is
    still pending, the Promise rejects exactly if the status code is at
    least 400 and [silent] is not set; the rejection is then a
    [FetchError] whose [status] is the status code and whose [statusText]
    is the status message.  In every other case the Promise resolves with
    the response object, and [text()] of that object gives the text of
    each chunk received, converted on its own and joined in arrival
    order. *)
Theorem status_decides_settlement
    (toString : Buffer → string) (rq : ClientRequest) (tr : list event)
    (st st' : call_state) (r : IncomingMessage) :
  steps toString rq (issued Pending) tr st →
  outcome st = Pending →
  res st = Some r →
  step toString rq st End st' →
  ((∃ err, outcome st' = Rejected err)
   ↔ (400 ≤ statusCode r)%Z ∧ truthy (silent rq) = false)
  ∧ (∀ err, outcome st' = Rejected err →
       status err = VNumber (statusCode r) ∧ statusText err = statusMessage r)
  ∧ (¬ ((400 ≤ statusCode r)%Z ∧ truthy (silent rq) = false) →
     ∃ res',
       outcome st' = Fulfilled res'
       ∧ statusCode res' = statusCode r
       ∧ statusMessage res' = statusMessage r
       ∧ text res' = Some (received toString tr)).
Proof.
  intros Hsteps Hp Hr Hend.
  pose proof (steps_data toString rq _ _ _ Hsteps (λ _, eq_refl)) as Hdata.
  cbn in Hdata.
  inversion Hend as [| |? r0 Hd He Hr0| |]; subst.
  rewrite Hr in Hr0. injection Hr0 as <-.
  cbn [mark_ended on_end outcome]. rewrite Hp.
  pose proof (status_test (statusCode r) (truthy (silent rq))) as Htest.
  destruct ((statusCode r >=? 400)%Z && negb (truthy (silent rq))); cbn.
  - split; [|split].
    + split; [intros _; by apply Htest | intros _; by eexists].
    + by intros err [= <-].
    + intros Hn. destruct Hn. by apply Htest.
  - split; [|split].
    + split; [by intros [err ?] | intros H%Htest; done].
    + by intros err ?.
    + intros _. eexists. split; [done|]. cbn. by rewrite Hdata.
Qed.

Lemma status_decides_settlement_witness :
  ∃ res',
    outcome (mark_ended
               (on_end (mkClientRequest http ∅ (VBoolean true) VNull)
                  (mkIncomingMessage 404 "Not Found" None)
                  (mkCall Pending (Some (mkIncomingMessage 404 "Not Found" None))
                     "nope" [] false false)))
    = Fulfilled res'
    ∧ statusCode res' = 404%Z
    ∧ statusMessage res' = "Not Found"
    ∧ text res' = Some "nope".
Proof.
  apply (status_decides_settlement utf8_toString
           (mkClientRequest http ∅ (VBoolean true) VNull)
           [Response 404 "Not Found"; Data (list_byte_of_string "no");
            Data (list_byte_of_string "pe")]
           (mkCall Pending (Some (mkIncomingMessage 404 "Not Found" None))
              "nope" [] false false)
           _
           (mkIncomingMessage 404 "Not Found" None)).
  - eapply steps_cons; [by apply step_response|].
    eapply steps_cons; [by eapply step_data|].
    eapply steps_cons; [by eapply step_data|].
    apply steps_nil.
  - reflexivity.
  - reflexivity.
  - by eapply step_end.
  - cbn. intros [_ Hsilent]. discriminate Hsilent.
Defined.

(** C5.  When the transport reports a timeout and neither a completion
    nor an error has occurred before, the listener destroys the request
    and the Promise rejects with
    [FetchError("Request timed out", 408, "Request Timeout")].  From then
    on the transport delivers no response, chunk or completion for this
    request; whatever it still reports leaves the Promise, the buffered
    body and the chunks given to [onData] as they were. *)
Theorem timeout_tears_down_and_rejects
    (toString : Buffer → string) (rq : ClientRequest) (tr : list event)
    (st st' : call_state) :
  steps toString rq (issued Pending) tr st →
  Forall (λ ev, is_completion_or_error ev = false) tr →
  step toString rq st Timeout st' →
  outcome st'
  = Rejected (mkFetchError "Request timed out" (VNumber 408) "Request Timeout")
  ∧ destroyed st' = true
  ∧ ∀ tr' st'',
      steps toString rq st' tr' st'' →
      Forall (λ ev, is_chunk_or_completion ev = false) tr'
      ∧ outcome st'' = outcome st'
      ∧ data st'' = data st'
      ∧ delivered st'' = delivered st'.
Proof.
  intros Hsteps Hquiet Htimeout.
  inversion Htimeout as [| | | |? Hd]; subst.
  pose proof (steps_unsettled toString rq _ _ _ Hsteps Hquiet Hd) as Hp.
  cbn in Hp.
  split; [cbn; by rewrite Hp|]. split; [done|].
  intros tr' st'' Hafter.
  destruct (steps_after_destroy toString rq _ _ _ Hafter)
    as (H1 & _ & H3 & H4 & H5 & _);
    [done | cbn; by rewrite Hp |].
  done.
Qed.

Lemma timeout_tears_down_and_rejects_witness :
  outcome (on_timeout
             (mkCall Pending (Some (mkIncomingMessage 200 "OK" None))
                "par" [list_byte_of_string "par"] false false))
  = Rejected (mkFetchError "Request timed out" (VNumber 408) "Request Timeout")
  ∧ destroyed (on_timeout
                 (mkCall Pending (Some (mkIncomingMessage 200 "OK" None))
                    "par" [list_byte_of_string "par"] false false))
    = true.
Proof.
  destruct (timeout_tears_down_and_rejects utf8_toString
              (mkClientRequest http ∅ VUndefined (VFunction "log"))
              [Response 200 "OK"; Data (list_byte_of_string "par")]
              (mkCall Pending (Some (mkIncomingMessage 200 "OK" None))
                 "par" [list_byte_of_string "par"] false false)
              (on_timeout
                 (mkCall Pending (Some (mkIncomingMessage 200 "OK" None))
                    "par" [list_byte_of_string "par"] false false)))
    as (Hrej & Hdes & _).
  - eapply steps_cons; [by apply step_response|].
    eapply steps_cons; [by eapply step_data|].
    apply steps_nil.
  - repeat constructor.
  - by apply step_timeout.
  - split; [exact Hrej | exact Hdes].
Defined.

(** * Further properties of the executor *)

Section ExecutorCases.

Variable new_URL : string → option URL.

Lemma resolve_input_selected url l w u cfg :
  target new_URL url = Some u →
  objects w !! l = Some cfg →
  ∃ p, selected url = Some p
       ∧ resolve_input new_URL url l w
         = (Normal (Some p, Some u),
            mkWorld (<[l := merged_config url cfg]> (objects w)) (settled w)).
Proof.
  intros Hu Hl. destruct url as [r|s|u'|v]; simpl in Hu.
  - eexists. split; [reflexivity|].
    unfold resolve_input, URL_of_string. rewrite Hu.
    unfold bind at 1. unfold ret at 1.
    by rewrite (bind_normal _ _ _ _ _ (read_run _ _ _ Hl)).
  - exists http. split; [reflexivity|].
    unfold resolve_input, URL_of_string. rewrite Hu.
    unfold bind, ret. simpl. rewrite insert_id by done. by rewrite world_eta.
  - injection Hu as ->. eexists. split; [reflexivity|].
    unfold resolve_input, ret. simpl.
    rewrite insert_id by done. by rewrite world_eta.
  - discriminate.
Qed.

(** A URL that does not parse stops the executor on the [TypeError] of
    [new URL], before anything is written and before [reject] could be
    called. *)
Lemma _fetch_unparsable url config w :
  target new_URL url = None →
  (∀ v, url ≠ InOther v) →
  _fetch new_URL url config w = (Throw "TypeError: Invalid URL", w).
Proof.
  intros Hu Hv. unfold _fetch.
  destruct url as [r|s|u'|v]; simpl in Hu; try discriminate.
  - apply bind_throw. unfold resolve_input, URL_of_string. by rewrite Hu.
  - apply bind_throw. unfold resolve_input, URL_of_string. by rewrite Hu.
  - by destruct (Hv v).
Qed.

(** Without an object behind the configuration reference the executor
    stops on the first read of it. *)
Lemma _fetch_dangling url config w :
  objects w !! default httpConfig_loc config = None →
  ∃ e w', _fetch new_URL url config w = (Throw e, w').
Proof.
  intros Hl. destruct url as [r|s|u|v].
  - destruct (new_URL (req_url r)) as [u|] eqn:Hu.
    + unfold _fetch. eexists _, _. apply bind_throw.
      unfold resolve_input, URL_of_string. rewrite Hu.
      unfold bind, ret, read. by rewrite Hl.
    + eexists _, _. by apply _fetch_unparsable.
  - destruct (new_URL s) as [u|] eqn:Hu.
    + unfold _fetch. eexists _, _.
      erewrite bind_normal;
        last by (unfold resolve_input, URL_of_string; rewrite Hu).
      apply bind_throw, bind_throw. unfold read. by rewrite Hl.
    + eexists _, _. by apply _fetch_unparsable.
  - unfold _fetch. eexists _, _.
    erewrite bind_normal; last by unfold resolve_input.
    apply bind_throw, bind_throw. unfold read. by rewrite Hl.
  - destruct (unrecognised_input_run new_URL v config w) as (e & w' & H & _).
    by eexists _, _.
Qed.

(** Every way a call can end: it issues a request exactly when its input
    has a URL that parses and its configuration is an object; then the
    request and the heap are the ones of [_fetch_run], with the transport
    of [selected]. *)
Lemma _fetch_issues_inv url config w rq w' :
  _fetch new_URL url config w = (Normal rq, w') →
  ∃ u cfg p,
    target new_URL url = Some u
    ∧ objects w !! default httpConfig_loc config = Some cfg
    ∧ selected url = Some p
    ∧ rq = request_for p u (resolved_config (merged_config url cfg))
    ∧ w' = mkWorld (<[default httpConfig_loc config
                      := resolved_config (merged_config url cfg)]> (objects w))
                   (settled w).
Proof.
  intros Hrun.
  destruct (objects w !! default httpConfig_loc config) as [cfg|] eqn:Hl;
    last first.
  { destruct (_fetch_dangling url config w Hl) as (e & w1 & H). congruence. }
  destruct (target new_URL url) as [u|] eqn:Hu; last first.
  { destruct url as [r|s|u'|v].
    - rewrite _fetch_unparsable in Hrun; done.
    - rewrite _fetch_unparsable in Hrun; done.
    - discriminate.
    - destruct (unrecognised_input_run new_URL v config w) as (e & w1 & H & _).
      congruence. }
  destruct (resolve_input_selected url _ w u cfg Hu Hl) as (p & Hp & Hres).
  rewrite (_fetch_after_resolve _ _ _ _ _ _ _ (merged_config url cfg) Hres)
    in Hrun by (cbn; apply lookup_insert_eq).
  cbn in Hrun. rewrite insert_insert_eq in Hrun.
  injection Hrun as <- <-. by exists u, cfg, p.
Qed.

End ExecutorCases.

Section Frame.

Variable new_URL : string → option URL.

Lemma writes_only_ret {A} l (a : A) : writes_only l (ret a).
Proof. by intros w l' _. Qed.

Lemma writes_only_throw {A} l e : writes_only l (throw (A:=A) e).
Proof. by intros w l' _. Qed.

Lemma writes_only_bind {A B} l (m : exec A) (k : A → exec B) :
  writes_only l m → (∀ a, writes_only l (k a)) → writes_only l (bind m k).
Proof.
  intros Hm Hk w l' Hne. unfold bind.
  specialize (Hm w l' Hne). destruct (m w) as [[a|e] w1]; cbn in Hm.
  - by rewrite Hk.
  - done.
Qed.

Lemma writes_only_read l l0 : writes_only l (read l0).
Proof. intros w l' _. unfold read. by destruct (objects w !! l0). Qed.

Lemma writes_only_write l o : writes_only l (write l o).
Proof. intros w l' Hne. cbn. by rewrite lookup_insert_ne. Qed.

Lemma writes_only_set_prop l k v : writes_only l (set_prop l k v).
Proof.
  apply writes_only_bind; [apply writes_only_read|].
  intros o w l' Hne. cbn. by rewrite lookup_insert_ne.
Qed.

Lemma writes_only_delete_prop l k : writes_only l (delete_prop l k).
Proof.
  apply writes_only_bind; [apply writes_only_read|].
  intros o w l' Hne. cbn. by rewrite lookup_insert_ne.
Qed.

Lemma writes_only_do_reject l err : writes_only l (do_reject err).
Proof. by intros w l' _. Qed.

Lemma writes_only_URL_of_string l s : writes_only l (URL_of_string new_URL s).
Proof.
  unfold URL_of_string.
  destruct (new_URL s); [apply writes_only_ret | apply writes_only_throw].
Qed.

Lemma writes_only__fetch url config :
  writes_only (default httpConfig_loc config) (_fetch new_URL url config).
Proof.
  unfold _fetch.
  repeat first
    [ apply writes_only_bind; [|intros ?]
    | apply writes_only_ret | apply writes_only_throw
    | apply writes_only_read | apply writes_only_write
    | apply writes_only_set_prop | apply writes_only_delete_prop
    | apply writes_only_do_reject | apply writes_only_URL_of_string
    | progress unfold resolve_input, headers_to_object, drain_body,
        drop_bodyUsed, issue
    | match goal with
      | |- writes_only _ (match ?x with _ => _ end) => destruct x
      | |- writes_only _ (if ?x then _ else _) => destruct x
      end ].
Qed.

Lemma with_method_run verb config h :
  (∃ cfg, caller_fields h config = Some cfg
          ∧ with_method verb config (mkWorld h Pending)
            = (Normal (fresh (dom h)),
               mkWorld (<[fresh (dom h) := <["method" := VString verb]> cfg]> h)
                       Pending))
  ∨ (caller_fields h config = None
     ∧ ∃ e, with_method verb config (mkWorld h Pending)
            = (Throw e, mkWorld h Pending)).
Proof.
  unfold with_method, spread. destruct config as [l|]; cbn.
  - destruct (h !! l) as [cfg|] eqn:Hl.
    + left. exists cfg. split; [done|].
      rewrite (bind_normal _ _ _ _ _ (read_run l cfg (mkWorld h Pending) Hl)).
      unfold alloc. cbn. by rewrite (right_id_L ∅ (∪)).
    + right. split; [done|]. eexists. apply bind_throw.
      unfold read. cbn. by rewrite Hl.
  - left. exists ∅. split; [done|]. unfold bind, ret, alloc. cbn.
    by rewrite (right_id_L ∅ (∪)).
Qed.

End Frame.

(** X1.  A call that issues a request sends it to the transport that the
    shape of its input selects: the TLS one for a [URL] object whose
    [protocol] is ["https:"] and for a [Request] whose [url] starts with
    ["https"], the plain one otherwise, and always the plain one for a
    string.  This holds for [fetch] and for every per-verb entry point. *)
Theorem transport_follows_input_shape
    (new_URL : string → option URL) (url : input) (config : option loc)
    (h : heap) (rq : ClientRequest) (w : world) :
  exports.fetch new_URL url config h = (Normal rq, w)
  ∨ (∃ verb, verb_call new_URL verb url config h = (Normal rq, w)) →
  selected url = Some (via rq).
Proof.
  intros [Hrun|[verb Hrun]].
  - destruct (_fetch_issues_inv new_URL _ _ _ _ _ Hrun)
      as (u & cfg & p & _ & _ & Hp & -> & _). done.
  - unfold verb_call, call in Hrun.
    destruct (with_method_run verb config h) as [(cfg & _ & Hw)|(_ & e & Hw)].
    + rewrite (bind_normal _ _ _ _ _ Hw) in Hrun.
      destruct (_fetch_issues_inv new_URL _ _ _ _ _ Hrun)
        as (u & cfg' & p & _ & _ & Hp & -> & _). done.
    + rewrite (bind_throw _ _ _ _ _ Hw) in Hrun. discriminate.
Qed.

Lemma transport_follows_input_shape_witness :
  selected (InURL (mkURL "https:" "example.com" "" "/" "" "")) = Some https.
Proof.
  apply (transport_follows_input_shape simple_URL
           (InURL (mkURL "https:" "example.com" "" "/" "" ""))
           None module_heap
           (request_for https (mkURL "https:" "example.com" "" "/" "" "")
              (resolved_config httpConfig))
           (mkWorld (<[httpConfig_loc := resolved_config httpConfig]> module_heap)
                    Pending)).
  left. vm_compute. reflexivity.
Defined.

(** X2.  A call of [fetch] that has no stream to drain writes to one
    object only, the configuration object of the call (the module's
    [httpConfig] when none is passed): every other configuration object
    on the heap is after the call what it was before, whether the call
    issued a request or stopped on an exception. *)
Theorem fetch_writes_only_its_config
    (new_URL : string → option URL) (url : input) (config : option loc)
    (h : heap) (l' : loc) :
  l' ≠ default httpConfig_loc config →
  (∀ cfg, h !! default httpConfig_loc config = Some cfg →
          instanceof_ReadableStream (get_prop (merged_config url cfg) "body")
          = false) →
  objects (exports.fetch new_URL url config h).2 !! l' = h !! l'.
Proof.
  intros Hne _. unfold exports.fetch, fetch, call.
  by rewrite (writes_only__fetch new_URL url config (mkWorld h Pending) l' Hne).
Qed.

Lemma fetch_writes_only_its_config_witness :
  objects (exports.fetch simple_URL
             (InRequest (mkRequest "http://a.test/" {["method" := VString "POST"]}))
             (Some 1%nat) (<[1%nat := ∅]> module_heap)).2 !! httpConfig_loc
  = (<[1%nat := ∅]> module_heap) !! httpConfig_loc.
Proof.
  apply (fetch_writes_only_its_config simple_URL
           (InRequest (mkRequest "http://a.test/" {["method" := VString "POST"]}))
           (Some 1%nat) (<[1%nat := ∅]> module_heap) httpConfig_loc).
  - vm_compute. discriminate.
  - intros cfg Hcfg. vm_compute in Hcfg. injection Hcfg as <-.
    vm_compute. reflexivity.
Defined.

(** X3.  A per-verb call that has no stream to drain writes to no object
    that existed before it: the caller's configuration object and the
    module's [httpConfig] are after the call what they were before,
    whatever the input and however the call ends. *)
Theorem verb_call_leaves_heap_alone
    (new_URL : string → option URL) (verb : string) (url : input)
    (config : option loc) (h : heap) (l' : loc) (o : object) :
  h !! l' = Some o →
  (∀ cfg, caller_fields h config = Some cfg →
          instanceof_ReadableStream
            (get_prop (merged_config url (<["method" := VString verb]> cfg))
               "body")
          = false) →
  objects (verb_call new_URL verb url config h).2 !! l' = Some o.
Proof.
  intros Hl _. unfold verb_call, call.
  destruct (with_method_run verb config h) as [(cfg & _ & Hw)|(_ & e & Hw)].
  - rewrite (bind_normal _ _ _ _ _ Hw).
    assert (l' ≠ fresh (dom h)) as Hne.
    { intros ->. apply (is_fresh (dom h)). apply elem_of_dom. by eexists. }
    rewrite (writes_only__fetch new_URL url (Some (fresh (dom h))) _ l' Hne).
    cbn. by rewrite lookup_insert_ne.
  - by rewrite (bind_throw _ _ _ _ _ Hw).
Qed.

Lemma verb_call_leaves_heap_alone_witness :
  objects (exports.post simple_URL
             (InRequest (mkRequest "http://a.test/"
                           (<["method" := VString "PUT"]>
                            {["headers" := VHeaders [("accept", "text/html")]]})))
             (Some 1%nat)
             (<[1%nat := {["timeout" := VNumber 100]}]> module_heap)).2
    !! 1%nat
  = Some {["timeout" := VNumber 100]}.
Proof.
  apply (verb_call_leaves_heap_alone simple_URL "POST"
           (InRequest (mkRequest "http://a.test/"
                         (<["method" := VString "PUT"]>
                          {["headers" := VHeaders [("accept", "text/html")]]})))
           (Some 1%nat)
           (<[1%nat := {["timeout" := VNumber 100]}]> module_heap)
           1%nat {["timeout" := VNumber 100]}).
  - vm_compute. reflexivity.
  - intros cfg Hcfg. vm_compute in Hcfg. injection Hcfg as <-.
    vm_compute. reflexivity.
Defined.

(** X4.  When the URL of a string or [Request] input does not parse,
    [new URL] throws inside the executor: no request is issued, nothing is
    written, and neither [resolve] nor [reject] is ever called, so the
    Promise of the call stays pending.  Through a per-verb entry point
    the outcome is the same. *)
Theorem unparsable_url_never_settles
    (new_URL : string → option URL) (url : input) (config : option loc)
    (h : heap) :
  target new_URL url = None →
  (∀ v, url ≠ InOther v) →
  exports.fetch new_URL url config h
  = (Throw "TypeError: Invalid URL", mkWorld h Pending)
  ∧ ∀ verb cfg,
      caller_fields h config = Some cfg →
      ∃ w, verb_call new_URL verb url config h
           = (Throw "TypeError: Invalid URL", w)
           ∧ settled w = Pending.
Proof.
  intros Hu Hv. split.
  - unfold exports.fetch, fetch, call. by apply _fetch_unparsable.
  - intros verb cfg Hc. unfold verb_call, call.
    destruct (with_method_run verb config h) as [(cfg' & _ & Hw)|(Hn & _)];
      [|congruence].
    rewrite (bind_normal _ _ _ _ _ Hw), _fetch_unparsable by done.
    by eexists.
Qed.

Lemma unparsable_url_never_settles_witness :
  exports.fetch simple_URL (InString "/search?q=1") None module_heap
  = (Throw "TypeError: Invalid URL", mkWorld module_heap Pending).
Proof.
  apply (unparsable_url_never_settles simple_URL (InString "/search?q=1")
           None module_heap); [reflexivity | discriminate].
Defined.

(** X5.  For an input that is no [Request], string or [URL] the executor
    does not stop at [reject]: it goes on to line 98 and replaces a
    [Headers] instance in the configuration object by a plain mapping,
    and only then stops on the [TypeError] of [_url.pathname].  No
    request is issued, and the body and [bodyUsed] of the configuration
    are not touched. *)
Theorem unrecognised_input_runs_on
    (new_URL : string → option URL) (v : value) (config : option loc)
    (h : heap) (cfg : object) :
  h !! default httpConfig_loc config = Some cfg →
  exports.fetch new_URL (InOther v) config h
  = (Throw "TypeError: Cannot read properties of undefined (reading 'pathname')",
     mkWorld (<[default httpConfig_loc config := headers_converted cfg]> h)
             (Rejected (mkFetchError "Invalid URL" (VNumber 400) "Bad Request"))).
Proof.
  intros Hl. unfold exports.fetch, fetch, call, _fetch.
  erewrite bind_normal; last by (unfold resolve_input, do_reject, bind, ret).
  cbn [fst snd].
  erewrite bind_normal; last by apply headers_to_object_run.
  reflexivity.
Qed.

Lemma unrecognised_input_runs_on_witness :
  exports.fetch simple_URL (InOther (VNumber 42)) (Some 1%nat)
    (<[1%nat := <["body" := VReadableStream ["ab"]]>
                 {["headers" := VHeaders [("accept", "text/html")]]}]>
       module_heap)
  = (Throw "TypeError: Cannot read properties of undefined (reading 'pathname')",
     mkWorld (<[1%nat := headers_converted
                           (<["body" := VReadableStream ["ab"]]>
                            {["headers" := VHeaders [("accept", "text/html")]]})]>
                (<[1%nat := <["body" := VReadableStream ["ab"]]>
                             {["headers" := VHeaders [("accept", "text/html")]]}]>
                   module_heap))
             (Rejected (mkFetchError "Invalid URL" (VNumber 400) "Bad Request"))).
Proof.
  apply (unrecognised_input_runs_on simple_URL (VNumber 42) (Some 1%nat)).
  vm_compute. reflexivity.
Defined.

(** X6.  Which [method] a per-verb call is issued with: the verb of the
    entry point replaces a [method] field of the caller's configuration,
    and a [method] property of a [Request] input that is neither a
    function nor [null]/[undefined] replaces the verb in turn. *)
Theorem method_precedence
    (new_URL : string → option URL) (verb : string) (url : input)
    (config : option loc) (h : heap) (cfg : object) (u : URL) :
  target new_URL url = Some u →
  caller_fields h config = Some cfg →
  ∃ rq w,
    verb_call new_URL verb url config h = (Normal rq, w)
    ∧ options rq !! "method"
      = Some match url with
             | InRequest r =>
                 match req_props r !! "method" with
                 | Some m => if copyable m then m else VString verb
                 | None => VString verb
                 end
             | _ => VString verb
             end.
Proof.
  intros Hu Hc.
  destruct (verb_call_run new_URL verb url config h u cfg Hu Hc) as [p Hrun].
  eexists _, _. split; [exact Hrun|].
  rewrite request_for_option, resolved_config_other by done.
  destruct url as [r|s|u'|v]; cbn [merged_config];
    try by rewrite lookup_insert_eq.
  rewrite copyProperties_lookup. unfold Request_enumerable.
  rewrite lookup_insert_ne by done. rewrite lookup_insert_eq.
  unfold copyable. destruct (req_props r !! "method") as [m|]; [|done].
  by destruct (typeof_function m || loose_null m).
Qed.

Lemma method_precedence_witness :
  ∃ rq w,
    exports.get simple_URL
      (InRequest (mkRequest "http://example.com/" {["method" := VString "POST"]}))
      (Some 1%nat) (<[1%nat := {["method" := VString "PUT"]}]> module_heap)
    = (Normal rq, w)
    ∧ options rq !! "method" = Some (VString "POST").
Proof.
  destruct (method_precedence simple_URL "GET"
              (InRequest (mkRequest "http://example.com/"
                            {["method" := VString "POST"]}))
              (Some 1%nat) (<[1%nat := {["method" := VString "PUT"]}]> module_heap)
              {["method" := VString "PUT"]}
              (mkURL "http:" "example.com" "" "/" "" ""))
    as (rq & w & Hrun & Hmethod); [reflexivity | vm_compute; reflexivity |].
  exists rq, w. split; [exact Hrun|]. rewrite Hmethod. vm_compute. reflexivity.
Defined.

(** ** What the configuration looks like once a request is issued *)

Section IssuedRequests.

Variable new_URL : string → option URL.

(** Both kinds of entry point issue the request of [request_for], for the
    final form of some configuration. *)
Lemma issued_request_inv url config h rq w :
  exports.fetch new_URL url config h = (Normal rq, w)
  ∨ (∃ verb, verb_call new_URL verb url config h = (Normal rq, w)) →
  ∃ p u cfg, target new_URL url = Some u
             ∧ rq = request_for p u (resolved_config cfg).
Proof.
  intros [Hrun|[verb Hrun]].
  - destruct (_fetch_issues_inv new_URL _ _ _ _ _ Hrun)
      as (u & cfg & p & Hu & _ & _ & -> & _). by eexists _, _, _.
  - unfold verb_call, call in Hrun.
    destruct (with_method_run verb config h) as [(cfg & _ & Hw)|(_ & e & Hw)].
    + rewrite (bind_normal _ _ _ _ _ Hw) in Hrun.
      destruct (_fetch_issues_inv new_URL _ _ _ _ _ Hrun)
        as (u & cfg' & p & Hu & _ & _ & -> & _). by eexists _, _, _.
    + rewrite (bind_throw _ _ _ _ _ Hw) in Hrun. discriminate.
Qed.

End IssuedRequests.

(** X7.  The two fields that the listeners consume, [silent] and
    [onData], are never among the options handed to the transport,
    whatever the configuration and the input hold. *)
Theorem control_fields_not_forwarded
    (new_URL : string → option URL) (url : input) (config : option loc)
    (h : heap) (rq : ClientRequest) (w : world) :
  exports.fetch new_URL url config h = (Normal rq, w)
  ∨ (∃ verb, verb_call new_URL verb url config h = (Normal rq, w)) →
  options rq !! "silent" = None ∧ options rq !! "onData" = None.
Proof.
  intros Hrun.
  destruct (issued_request_inv new_URL _ _ _ _ _ Hrun) as (p & u & cfg & _ & ->).
  cbn. unfold request_options, spread.
  rewrite !lookup_union, !lookup_insert_ne, !lookup_empty by done.
  rewrite lookup_delete_ne, !lookup_delete_eq by done. done.
Qed.

Lemma control_fields_not_forwarded_witness :
  options (request_for http (mkURL "http:" "example.com" "" "/" "" "")
             (resolved_config
                (<["onData" := VFunction "log"]>
                 {["silent" := VBoolean true]}))) !! "silent" = None
  ∧ options (request_for http (mkURL "http:" "example.com" "" "/" "" "")
               (resolved_config
                  (<["onData" := VFunction "log"]>
                   {["silent" := VBoolean true]}))) !! "onData" = None.
Proof.
  apply (control_fields_not_forwarded simple_URL
           (InString "http://example.com/") (Some 1%nat)
           (<[1%nat := <["onData" := VFunction "log"]>
                        {["silent" := VBoolean true]}]> module_heap)
           _
           (mkWorld (<[1%nat := resolved_config
                                  (<["onData" := VFunction "log"]>
                                   {["silent" := VBoolean true]})]>
                       (<[1%nat := <["onData" := VFunction "log"]>
                                    {["silent" := VBoolean true]}]> module_heap))
                    Pending)).
  left. vm_compute. reflexivity.
Defined.

(** X8.  The transport never receives a [Headers] instance as [headers],
    a [ReadableStream] as [body], or a boolean [bodyUsed]: by the time a
    request is issued the first two have been replaced and the third
    removed. *)
Theorem issued_options_are_plain
    (new_URL : string → option URL) (url : input) (config : option loc)
    (h : heap) (rq : ClientRequest) (w : world) :
  exports.fetch new_URL url config h = (Normal rq, w)
  ∨ (∃ verb, verb_call new_URL verb url config h = (Normal rq, w)) →
  instanceof_Headers (get_prop (options rq) "headers") = false
  ∧ instanceof_ReadableStream (get_prop (options rq) "body") = false
  ∧ typeof_boolean (get_prop (options rq) "bodyUsed") = false.
Proof.
  intros Hrun.
  destruct (issued_request_inv new_URL _ _ _ _ _ Hrun) as (p & u & cfg & _ & ->).
  destruct (resolved_config_clean cfg) as (Hh & Hb & Hu).
  split; [|split].
  - erewrite get_prop_ext; [exact Hh|]. by apply request_for_option.
  - erewrite get_prop_ext; [exact Hb|]. by apply request_for_option.
  - erewrite get_prop_ext; [exact Hu|]. by apply request_for_option.
Qed.

Lemma issued_options_are_plain_witness :
  ∃ rq w,
    exports.put simple_URL
      (InRequest (mkRequest "http://example.com/"
                    (<["method" := VString "PUT"]>
                     (<["headers" := VHeaders [("accept", "text/html")]]>
                      (<["body" := VReadableStream ["ab"; "cd"]]>
                       {["bodyUsed" := VBoolean false]})))))
      None module_heap
    = (Normal rq, w)
    ∧ options rq !! "headers" = Some (VObject {["accept" := "text/html"]})
    ∧ options rq !! "body" = Some (VString "abcd")
    ∧ options rq !! "bodyUsed" = None
    ∧ instanceof_Headers (get_prop (options rq) "headers") = false.
Proof.
  eexists _, _. split; [vm_compute; reflexivity|].
  split; [vm_compute; reflexivity|]. split; [vm_compute; reflexivity|].
  split; [vm_compute; reflexivity|].
  eapply (issued_options_are_plain simple_URL
            (InRequest (mkRequest "http://example.com/"
                          (<["method" := VString "PUT"]>
                           (<["headers" := VHeaders [("accept", "text/html")]]>
                            (<["body" := VReadableStream ["ab"; "cd"]]>
                             {["bodyUsed" := VBoolean false]})))))
            None module_heap).
  right. exists "PUT". vm_compute. reflexivity.
Defined.

(** X9.  Every field of the final configuration object other than
    [silent] and [onData] reaches the transport with the value it has
    there, including fields named [hostname] or [port], which replace the
    ones of the URL; where the configuration has no such field the host
    name and port of the URL are sent.  The listeners get the [silent]
    and [onData] of that same object. *)
Theorem config_fields_reach_transport
    (new_URL : string → option URL) (url : input) (config : option loc)
    (h : heap) (cfg : object) (u : URL) :
  target new_URL url = Some u →
  h !! default httpConfig_loc config = Some cfg →
  ∃ rq w cfg',
    exports.fetch new_URL url config h = (Normal rq, w)
    ∧ objects w !! default httpConfig_loc config = Some cfg'
    ∧ (∀ k v, k ≠ "silent" → k ≠ "onData" →
         cfg' !! k = Some v → options rq !! k = Some v)
    ∧ (cfg' !! "hostname" = None →
       options rq !! "hostname" = Some (VString (hostname u)))
    ∧ (cfg' !! "port" = None →
       options rq !! "port" = Some (VString (port u)))
    ∧ silent rq = get_prop cfg' "silent"
    ∧ onData rq = get_prop cfg' "onData".
Proof.
  intros Hu Hl.
  destruct (fetch_run new_URL url config h u cfg Hu Hl) as [p Hrun].
  eexists _, _, (resolved_config (merged_config url cfg)).
  split; [exact Hrun|]. split; [apply lookup_insert_eq|].
  cbn [options silent onData request_for]. unfold request_options, spread.
  split; [|split; [|split]].
  - intros k v Hs Ho Hk. apply lookup_union_Some_l.
    by rewrite !lookup_delete_ne.
  - intros Hn. rewrite lookup_union_r by by rewrite !lookup_delete_ne.
    rewrite !lookup_insert_ne by done. by rewrite lookup_insert_eq.
  - intros Hn. rewrite lookup_union_r by by rewrite !lookup_delete_ne.
    rewrite lookup_insert_ne by done. by rewrite lookup_insert_eq.
  - done.
Qed.

Lemma config_fields_reach_transport_witness :
  ∃ rq w cfg',
    exports.fetch simple_URL (InString "http://example.com:8080/a") (Some 1%nat)
      (<[1%nat := <["port" := VNumber 9090]> {["auth" := VString "u:p"]}]>
         module_heap)
    = (Normal rq, w)
    ∧ objects w !! 1%nat = Some cfg'
    ∧ options rq !! "auth" = Some (VString "u:p")
    ∧ options rq !! "port" = Some (VNumber 9090)
    ∧ options rq !! "hostname" = Some (VString "example.com").
Proof.
  destruct (config_fields_reach_transport simple_URL
              (InString "http://example.com:8080/a") (Some 1%nat)
              (<[1%nat := <["port" := VNumber 9090]> {["auth" := VString "u:p"]}]>
                 module_heap)
              (<["port" := VNumber 9090]> {["auth" := VString "u:p"]})
              (mkURL "http:" "example.com" "8080" "/a" "" ""))
    as (rq & w & cfg' & Hrun & Hcfg & Hfields & Hhost & _);
    [reflexivity | vm_compute; reflexivity |].
  exists rq, w, cfg'. split; [exact Hrun|]. split; [exact Hcfg|].
  vm_compute in Hrun. injection Hrun as _ <-.
  cbn [objects] in Hcfg. vm_compute in Hcfg. injection Hcfg as <-.
  split; [apply Hfields; [done|done|vm_compute; reflexivity]|].
  split; [apply Hfields; [done|done|vm_compute; reflexivity]|].
  apply Hhost. vm_compute. reflexivity.
Defined.

(** X10.  What a call makes of its configuration object is stable: a
    further call that is passed the same object with a string or [URL]
    input leaves the object, and the whole heap, as the first call left
    it. *)
Theorem second_call_leaves_config
    (new_URL : string → option URL) (url url2 : input) (config : option loc)
    (h : heap) (cfg : object) (u u2 : URL) :
  target new_URL url = Some u →
  h !! default httpConfig_loc config = Some cfg →
  target new_URL url2 = Some u2 →
  instanceof_Request url2 = false →
  objects (exports.fetch new_URL url2 config
             (objects (exports.fetch new_URL url config h).2)).2
  = objects (exports.fetch new_URL url config h).2.
Proof.
  intros Hu Hl Hu2 Hreq.
  destruct (fetch_run new_URL url config h u cfg Hu Hl) as [p Hrun].
  unfold exports.fetch. rewrite Hrun. cbn [snd objects].
  destruct (fetch_run new_URL url2 config
              (<[default httpConfig_loc config
                 := resolved_config (merged_config url cfg)]> h)
              u2 (resolved_config (merged_config url cfg)) Hu2
              (lookup_insert_eq _ _ _)) as [p2 Hrun2].
  rewrite Hrun2. cbn [snd objects].
  rewrite insert_insert_eq.
  destruct url2; try done; cbn [merged_config]; by rewrite resolved_config_idem.
Qed.

Lemma second_call_leaves_config_witness :
  objects (exports.fetch simple_URL (InString "http://b.test/") (Some 1%nat)
             (objects (exports.fetch simple_URL
                         (InRequest (mkRequest "http://a.test/"
                                       (<["method" := VString "GET"]>
                                        {["bodyUsed" := VBoolean false]})))
                         (Some 1%nat) (<[1%nat := ∅]> module_heap)).2)).2
  = objects (exports.fetch simple_URL
               (InRequest (mkRequest "http://a.test/"
                             (<["method" := VString "GET"]>
                              {["bodyUsed" := VBoolean false]})))
               (Some 1%nat) (<[1%nat := ∅]> module_heap)).2.
Proof.
  apply (second_call_leaves_config simple_URL
           (InRequest (mkRequest "http://a.test/"
                         (<["method" := VString "GET"]>
                          {["bodyUsed" := VBoolean false]})))
           (InString "http://b.test/") (Some 1%nat) (<[1%nat := ∅]> module_heap)
           ∅ (mkURL "http:" "a.test" "" "/" "" "")
           (mkURL "http:" "b.test" "" "/" "" ""));
    vm_compute; reflexivity.
Defined.

(** * Further properties of [copyProperties] *)

(** X11.  The loop of [copyProperties] computes a union: the result is
    the target overlaid with those properties of the source that are
    neither functions nor [null]/[undefined].  So no key of the target is
    ever removed, and the order in which [for ... in] visits the source
    does not matter. *)
Theorem copyProperties_is_overlay (target source : object) :
  copyProperties target source
  = filter (λ kv, copyable kv.2 = true) source ∪ target.
Proof.
  apply map_eq. intros k.
  rewrite copyProperties_lookup, lookup_union. unfold copyable.
  destruct (source !! k) as [v|] eqn:Hk.
  - destruct (typeof_function v || loose_null v) eqn:Hskip.
    + rewrite (proj2 (map_lookup_filter_None _ _ _)); [by destruct (target !! k)|].
      right. intros v' Hv'. rewrite Hk in Hv'. injection Hv' as <-.
      cbn. by rewrite Hskip.
    + rewrite (map_lookup_filter_Some_2 _ _ k v); [by destruct (target !! k)|done|].
      cbn. by rewrite Hskip.
  - rewrite (proj2 (map_lookup_filter_None _ _ _)); [by destruct (target !! k)|].
    by left.
Qed.

(** X12.  Copying the same source a second time changes nothing. *)
Theorem copyProperties_idempotent (target source : object) :
  copyProperties (copyProperties target source) source
  = copyProperties target source.
Proof.
  apply map_eq. intros k. rewrite !copyProperties_lookup.
  destruct (source !! k) as [v|]; [|done].
  by destruct (typeof_function v || loose_null v).
Qed.

(** * Further properties of the listeners *)

Section ListenerInvariants.

Variable toString : Buffer → string.
Variable rq : ClientRequest.

Lemma step_outcome_stable st ev st' :
  step toString rq st ev st' → outcome st ≠ Pending → outcome st' = outcome st.
Proof.
  intros Hstep Hp.
  inversion Hstep as [| chunk ? r c ? ? ? ? Hon | ? r | |]; subst; cbn.
  - done.
  - by destruct (on_data_inv toString rq _ _ _ _ Hon) as (_ & _ & -> & _).
  - destruct (outcome st); try done;
      by destruct ((statusCode r >=? 400)%Z && negb (truthy (silent rq))).
  - by destruct (outcome st).
  - by destruct (outcome st).
Qed.

Lemma outcome_stable st tr st' :
  steps toString rq st tr st' → outcome st ≠ Pending → outcome st' = outcome st.
Proof.
  induction 1 as [|st ev st1 tr st2 Hstep Hsteps IH]; [done|].
  intros Hp. pose proof (step_outcome_stable _ _ _ Hstep Hp) as H1.
  rewrite IH by by rewrite H1. done.
Qed.

Lemma step_settles st ev st' :
  step toString rq st ev st' → outcome st = Pending →
  (outcome st' = Pending ↔ settles ev = false).
Proof.
  intros Hstep Hp.
  inversion Hstep as [| chunk ? r c ? ? ? ? Hon | ? r | |]; subst; cbn.
  - by rewrite Hp.
  - destruct (on_data_inv toString rq _ _ _ _ Hon) as (_ & _ & -> & _).
    by rewrite Hp.
  - rewrite Hp.
    by destruct ((statusCode r >=? 400)%Z && negb (truthy (silent rq))).
  - by rewrite Hp.
  - by rewrite Hp.
Qed.

Lemma pending_iff_quiet st0 tr st :
  steps toString rq st0 tr st → outcome st0 = Pending →
  (outcome st = Pending ↔ Forall (λ ev, settles ev = false) tr).
Proof.
  induction 1 as [st|st ev st1 tr st2 Hstep Hsteps IH]; intros Hp.
  - split; [by constructor | done].
  - pose proof (step_settles _ _ _ Hstep Hp) as Hev.
    rewrite Forall_cons. destruct (settles ev) eqn:Hs.
    + assert (outcome st1 ≠ Pending) as Hn by (intros H; by apply Hev in H).
      split; [|by intros [? _]].
      intros H2. rewrite (outcome_stable _ _ _ Hsteps Hn) in H2. done.
    + rewrite IH by by apply Hev. split; [by intros ? | by intros [_ ?]].
Qed.

Lemma on_data_delivered chunk st c st' :
  on_data toString rq chunk st = (c, st') →
  delivered st'
  = (delivered st ++ (if typeof_function (onData rq) then [chunk] else []))%list.
Proof.
  unfold on_data.
  destruct (truthy (onData rq)) eqn:Ht;
    destruct (typeof_function (onData rq)) eqn:Hf;
    try (intros [= <- <-]; cbn; by rewrite ?app_nil_r).
  by destruct (onData rq).
Qed.

Lemma steps_delivered st0 tr st :
  steps toString rq st0 tr st →
  delivered st
  = (delivered st0
     ++ (if typeof_function (onData rq) then chunks_of tr else []))%list.
Proof.
  induction 1 as [st|st ev st1 tr st2 Hstep Hsteps IH].
  - cbn. by destruct (typeof_function _); rewrite app_nil_r.
  - rewrite IH.
    inversion Hstep as [| chunk ? r c ? ? ? ? Hon | | |]; subst; cbn; try done.
    rewrite (on_data_delivered _ _ _ _ Hon).
    destruct (typeof_function (onData rq)); by rewrite <- app_assoc.
Qed.

Lemma received_joins tr :
  received toString tr = foldr String.append "" (toString <$> chunks_of tr).
Proof.
  induction tr as [|[] tr IH]; cbn; try done. by rewrite IH.
Qed.

Lemma steps_app st1 tr1 st2 tr2 st3 :
  steps toString rq st1 tr1 st2 → steps toString rq st2 tr2 st3 →
  steps toString rq st1 (tr1 ++ tr2) st3.
Proof.
  induction 1 as [|st ev st' tr st'' Hstep Hsteps IH]; [done|].
  intros H. cbn. eapply steps_cons; [done|]. by apply IH.
Qed.

(** The transport can deliver any list of chunks to a call whose response
    has started. *)
Lemma steps_chunks chunks :
  ∀ st r,
    destroyed st = false → ended st = false → res st = Some r →
    ∃ st',
      steps toString rq st (Data <$> chunks) st'
      ∧ data st' = data st +:+ foldr String.append "" (toString <$> chunks)
      ∧ outcome st' = outcome st
      ∧ res st' = Some r
      ∧ destroyed st' = false
      ∧ ended st' = false.
Proof.
  induction chunks as [|c chunks IH]; intros st r Hd He Hr.
  - exists st. cbn. rewrite append_empty_r. repeat split; try done. constructor.
  - destruct (on_data toString rq c st) as [cpl st1] eqn:Hon.
    destruct (on_data_inv toString rq _ _ _ _ Hon)
      as (Hdata & Hres & Hout & Hdes & Hend).
    destruct (IH st1 r) as (st' & Hsteps & H1 & H2 & H3 & H4 & H5);
      [congruence | congruence | congruence |].
    exists st'. split.
    { cbn. eapply steps_cons; [by eapply step_data|done]. }
    cbn [foldr fmap list_fmap]. rewrite H1, Hdata, append_assoc, H2, Hout. done.
Qed.

End ListenerInvariants.

(** X14.  The Promise of a call settles exactly once.  It is pending
    exactly as long as the transport has delivered no ['end'], ['error']
    or ['timeout'] event; and once it is settled, no later event, of any
    kind, changes how it was settled. *)
Theorem promise_settles_exactly_once
    (toString : Buffer → string) (rq : ClientRequest) (tr : list event)
    (st : call_state) :
  steps toString rq (issued Pending) tr st →
  (outcome st = Pending ↔ Forall (λ ev, settles ev = false) tr)
  ∧ ∀ tr' st',
      steps toString rq st tr' st' →
      outcome st ≠ Pending → outcome st' = outcome st.
Proof.
  intros Hsteps. split.
  - by apply (pending_iff_quiet toString rq _ _ _ Hsteps).
  - intros tr' st' Hafter Hn. by apply (outcome_stable toString rq _ _ _ Hafter).
Qed.

Lemma promise_settles_exactly_once_witness :
  outcome (on_error "late" (VString "ECONNRESET")
             (mark_ended
                (on_end (mkClientRequest http ∅ VUndefined VNull)
                   (mkIncomingMessage 200 "OK" None)
                   (on_response 200 "OK" (issued Pending)))))
  = outcome (mark_ended
               (on_end (mkClientRequest http ∅ VUndefined VNull)
                  (mkIncomingMessage 200 "OK" None)
                  (on_response 200 "OK" (issued Pending)))).
Proof.
  apply (proj2 (promise_settles_exactly_once utf8_toString
                  (mkClientRequest http ∅ VUndefined VNull)
                  [Response 200 "OK"; End]
                  (mark_ended
                     (on_end (mkClientRequest http ∅ VUndefined VNull)
                        (mkIncomingMessage 200 "OK" None)
                        (on_response 200 "OK" (issued Pending))))
                  ltac:(eapply steps_cons; [by apply step_response|];
                        eapply steps_cons; [by eapply step_end|];
                        apply steps_nil))
           [Error "late" (VString "ECONNRESET")]).
  - eapply steps_cons; [apply step_error | apply steps_nil].
  - discriminate.
Defined.

(** X15.  When the first settling event of a call is an ['error'] of the
    transport, the Promise rejects with a [FetchError] whose message and
    status text are both the error's message and whose status is the
    error's code, whether or not [silent] is set, and whatever the
    transport delivers afterwards. *)
Theorem transport_error_rejects
    (toString : Buffer → string) (rq : ClientRequest)
    (pre post : list event) (st1 st2 st3 : call_state)
    (msg : string) (code : value) :
  steps toString rq (issued Pending) pre st1 →
  Forall (λ ev, settles ev = false) pre →
  step toString rq st1 (Error msg code) st2 →
  steps toString rq st2 post st3 →
  outcome st3 = Rejected (mkFetchError msg code msg).
Proof.
  intros Hpre Hquiet Herr Hpost.
  assert (outcome st1 = Pending) as Hp
    by by apply (pending_iff_quiet toString rq _ _ _ Hpre).
  inversion Herr; subst.
  rewrite (outcome_stable toString rq _ _ _ Hpost); cbn; by rewrite Hp.
Qed.

Lemma transport_error_rejects_witness :
  outcome (mark_ended
             (on_end (mkClientRequest http ∅ (VBoolean true) VNull)
                (mkIncomingMessage 200 "OK" None)
                (on_error "socket hang up" (VString "ECONNRESET")
                   (on_response 200 "OK" (issued Pending)))))
  = Rejected (mkFetchError "socket hang up" (VString "ECONNRESET")
                "socket hang up").
Proof.
  apply (transport_error_rejects utf8_toString
           (mkClientRequest http ∅ (VBoolean true) VNull)
           [Response 200 "OK"] [End]
           (on_response 200 "OK" (issued Pending))
           (on_error "socket hang up" (VString "ECONNRESET")
              (on_response 200 "OK" (issued Pending)))).
  - eapply steps_cons; [by apply step_response | apply steps_nil].
  - repeat constructor.
  - apply step_error.
  - eapply steps_cons; [by eapply step_end | apply steps_nil].
Defined.

(** X16.  When [onData] is a function it is called once for every chunk
    the transport delivers, in arrival order and with the [Buffer] of
    that chunk; otherwise no chunk is handed to it.  Either way
    the buffer that the decode methods read is the text of each chunk
    delivered, converted on its own and joined in arrival order. *)
Theorem onData_sees_every_chunk
    (toString : Buffer → string) (rq : ClientRequest) (tr : list event)
    (st : call_state) :
  steps toString rq (issued Pending) tr st →
  delivered st = (if typeof_function (onData rq) then chunks_of tr else [])
  ∧ data st = foldr String.append "" (toString <$> chunks_of tr).
Proof.
  intros Hsteps. split.
  - by rewrite (steps_delivered toString rq _ _ _ Hsteps).
  - rewrite (steps_data toString rq _ _ _ Hsteps (λ _, eq_refl)). cbn.
    apply received_joins.
Qed.

Lemma onData_sees_every_chunk_witness :
  delivered (mkCall Pending (Some (mkIncomingMessage 200 "OK" None))
               ("a" +:+ replacement +:+ replacement +:+ "b")
               [[x61; xc3]; [xa9; x62]] false false)
  = [[x61; xc3]; [xa9; x62]]
  ∧ data (mkCall Pending (Some (mkIncomingMessage 200 "OK" None))
            ("a" +:+ replacement +:+ replacement +:+ "b")
            [[x61; xc3]; [xa9; x62]] false false)
    = "a" +:+ replacement +:+ replacement +:+ "b".
Proof.
  apply (onData_sees_every_chunk utf8_toString
           (mkClientRequest http ∅ VUndefined (VFunction "log"))
           [Response 200 "OK"; Data [x61; xc3]; Data [xa9; x62]]).
  eapply steps_cons; [by apply step_response|].
  eapply steps_cons; [by eapply step_data|].
  eapply steps_cons; [by eapply step_data|].
  apply steps_nil.
Defined.

Lemma exchange_run (toString : Buffer → string) (rq : ClientRequest)
    (code : Z) (msg : string) (chunks : list Buffer) :
  ∃ st,
    steps toString rq (issued Pending) (exchange code msg chunks) st
    ∧ res st
      = Some (mkIncomingMessage code msg
                (Some (foldr String.append "" (toString <$> chunks))))
    ∧ outcome st
      = if (code >=? 400)%Z && negb (truthy (silent rq))
        then Rejected (mkFetchError
                         ("Request failed with status code " +:+ pretty code)
                         (VNumber code) msg)
        else Fulfilled (mkIncomingMessage code msg
                          (Some (foldr String.append "" (toString <$> chunks)))).
Proof.
  destruct (steps_chunks toString rq chunks
              (on_response code msg (issued Pending))
              (mkIncomingMessage code msg None) eq_refl eq_refl eq_refl)
    as (st2 & Hsteps & Hdata & Hout & Hres & Hdes & Hend).
  cbn in Hdata, Hout.
  exists (mark_ended (on_end rq (mkIncomingMessage code msg None) st2)). split.
  { unfold exchange. eapply steps_cons; [by apply step_response|].
    eapply steps_app; [exact Hsteps|].
    eapply steps_cons; [by eapply step_end | apply steps_nil]. }
  cbn. rewrite Hdata, Hout. split; [done|].
  by destruct ((code >=? 400)%Z && negb (truthy (silent rq))).
Qed.

(** X17.  A call and its exchange, end to end.  When the input has a URL
    and [onData] is absent or a function, the call issues a request, the
    transport can deliver the response, its chunks and the end of the
    body, and the Promise is then settled by the status code and by the
    [silent] field of the call's configuration alone: rejected with
    ["Request failed with status code N"] when the code is at least 400
    and [silent] is falsy, resolved with the response otherwise.  In both
    cases the response object carries the decode methods over the text
    of each chunk, converted on its own and joined in arrival order. *)
Theorem call_exchange_outcome
    (new_URL : string → option URL) (toString : Buffer → string)
    (url : input) (config : option loc)
    (h : heap) (cfg : object) (u : URL) (code : Z) (msg : string)
    (chunks : list Buffer) :
  target new_URL url = Some u →
  h !! default httpConfig_loc config = Some cfg →
  truthy (get_prop (merged_config url cfg) "onData") = false
  ∨ typeof_function (get_prop (merged_config url cfg) "onData") = true →
  ∃ rq w st,
    exports.fetch new_URL url config h = (Normal rq, w)
    ∧ steps toString rq (issued (settled w)) (exchange code msg chunks) st
    ∧ res st
      = Some (mkIncomingMessage code msg
                (Some (foldr String.append "" (toString <$> chunks))))
    ∧ outcome st
      = if (code >=? 400)%Z
           && negb (truthy (get_prop (merged_config url cfg) "silent"))
        then Rejected (mkFetchError
                         ("Request failed with status code " +:+ pretty code)
                         (VNumber code) msg)
        else Fulfilled (mkIncomingMessage code msg
                          (Some (foldr String.append ""
                                   (toString <$> chunks)))).
Proof.
  intros Hu Hl Hcb.
  destruct (fetch_run new_URL url config h u cfg Hu Hl) as [p Hrun].
  set (rq := request_for p u (resolved_config (merged_config url cfg))) in *.
  assert (silent rq = get_prop (merged_config url cfg) "silent") as Hsilent
    by (cbn; apply get_prop_ext; by apply resolved_config_other).
  destruct (exchange_run toString rq code msg chunks)
    as (st & Hsteps & Hres & Hout).
  eexists rq, _, st. split; [exact Hrun|]. cbn [settled].
  split; [exact Hsteps|]. split; [exact Hres|]. by rewrite <- Hsilent.
Qed.

Lemma call_exchange_outcome_witness :
  ∃ rq w st,
    exports.fetch simple_URL (InString "http://example.com/missing")
      (Some 1%nat) (<[1%nat := {["silent" := VBoolean true]}]> module_heap)
    = (Normal rq, w)
    ∧ steps utf8_toString rq (issued (settled w))
        (exchange 404 "Not Found"
           [list_byte_of_string "no"; list_byte_of_string "pe"]) st
    ∧ outcome st
      = Fulfilled (mkIncomingMessage 404 "Not Found" (Some "nope")).
Proof.
  destruct (call_exchange_outcome simple_URL utf8_toString
              (InString "http://example.com/missing") (Some 1%nat)
              (<[1%nat := {["silent" := VBoolean true]}]> module_heap)
              {["silent" := VBoolean true]}
              (mkURL "http:" "example.com" "" "/missing" "" "")
              404 "Not Found"
              [list_byte_of_string "no"; list_byte_of_string "pe"])
    as (rq & w & st & Hrun & Hsteps & _ & Hout);
    [reflexivity | vm_compute; reflexivity | left; vm_compute; reflexivity |].
  exists rq, w, st. split; [exact Hrun|]. split; [exact Hsteps|].
  rewrite Hout. vm_compute. reflexivity.
Defined.

(** X18.  When a call does not change its configuration object.  If the
    input is not a [Request] and the configuration holds no [Headers]
    instance as [headers], no [ReadableStream] as [body] and no boolean
    [bodyUsed], then [fetch] leaves the whole heap as it found it,
    whether it issues a request, stops on an unparsable URL, or rejects
    an unrecognised input. *)
Theorem plain_config_untouched
    (new_URL : string → option URL) (url : input) (config : option loc)
    (h : heap) (cfg : object) :
  h !! default httpConfig_loc config = Some cfg →
  instanceof_Request url = false →
  instanceof_Headers (get_prop cfg "headers") = false →
  instanceof_ReadableStream (get_prop cfg "body") = false →
  typeof_boolean (get_prop cfg "bodyUsed") = false →
  objects (exports.fetch new_URL url config h).2 = h.
Proof.
  intros Hl Hreq Hh Hb Hu.
  assert (resolved_config cfg = cfg) as Hid.
  { unfold resolved_config.
    by rewrite (headers_converted_id _ Hh), (body_drained_id _ Hb),
      (bodyUsed_dropped_id _ Hu). }
  destruct url as [r|s|u|v]; [done| | |].
  - destruct (new_URL s) as [u|] eqn:Hs.
    + destruct (fetch_run new_URL (InString s) config h u cfg Hs Hl) as [p Hrun].
      unfold exports.fetch. rewrite Hrun. cbn. rewrite Hid. by apply insert_id.
    + unfold exports.fetch, fetch, call.
      by rewrite _fetch_unparsable.
  - destruct (fetch_run new_URL (InURL u) config h u cfg eq_refl Hl) as [p Hrun].
    unfold exports.fetch. rewrite Hrun. cbn. rewrite Hid. by apply insert_id.
  - unfold exports.fetch, fetch, call, _fetch.
    erewrite bind_normal; last by (unfold resolve_input, do_reject, bind, ret).
    cbn [fst snd].
    erewrite bind_normal; last by apply headers_to_object_run.
    cbn. rewrite (headers_converted_id _ Hh). by apply insert_id.
Qed.

Lemma plain_config_untouched_witness :
  objects (exports.fetch simple_URL (InString "http://example.com/") None
             module_heap).2
  = module_heap.
Proof.
  apply (plain_config_untouched simple_URL (InString "http://example.com/")
           None module_heap httpConfig); reflexivity.
Defined.
